(** * Allowlist Merkle commitments of dapp_punks

    A shallow embedding of [src/utils.js] (the [CustomMerkleTree] wrapper,
    [buildMerkleTree], [getMerkleProof]) and of the allowlist check of
    [contracts/NFT.sol], together with the parts of their dependencies that
    the wrapper calls: Node's [Buffer], ethers' [keccak256], [getAddress] and
    [defaultAbiCoder], merkletreejs' [MerkleTree] and OpenZeppelin's
    [MerkleProof]. *)

From Stdlib Require Import List Arith NArith ZArith Lia Bool Ascii String.
From Stdlib.Strings Require Import Byte.
From Equations Require Import Equations.
Import ListNotations.

Set Implicit Arguments.

(** ** Results of calls that may throw *)

(** A JavaScript [Error]; the code only ever throws plain [Error]s, which
    differ from one another by their message alone. *)
Inductive exn : Type :=
| Error (message : string).

Inductive result (A : Type) : Type :=
| Ok (a : A)
| Throw (e : exn).

Arguments Ok {A} a.
Arguments Throw {A} e.

Definition bind {A B : Type} (r : result A) (k : A -> result B) : result B :=
  match r with
  | Ok a => k a
  | Throw e => Throw e
  end.

Notation "'let*' x ':=' r 'in' k" := (bind r (fun x => k))
  (at level 10, x name, r at level 100, k at level 200).

(** [Array.prototype.map] with a callback that may throw. *)
Fixpoint mapM {A B : Type} (f : A -> result B) (l : list A) : result (list B) :=
  match l with
  | [] => Ok []
  | a :: l' =>
      let* b := f a in
      let* bs := mapM f l' in
      Ok (b :: bs)
  end.

(** ** Buffers and hexadecimal text *)

Module Buffer.

(** A Node [Buffer] (or [Uint8Array]): a sequence of bytes. *)
Definition t : Type := list byte.

(** [Buffer.compare(a, b)]: byte-wise lexicographic order, a proper
    prefix being smaller. *)
Fixpoint compare (a b : t) : comparison :=
  match a, b with
  | [], [] => Eq
  | [], _ :: _ => Lt
  | _ :: _, [] => Gt
  | x :: a', y :: b' =>
      match N.compare (Byte.to_N x) (Byte.to_N y) with
      | Eq => compare a' b'
      | c => c
      end
  end.

Definition eqb (a b : t) : bool :=
  match compare a b with Eq => true | _ => false end.

(** The smaller and the larger of two buffers in that order. *)
Definition min (a b : t) : t :=
  match compare a b with Gt => b | _ => a end.

Definition max (a b : t) : t :=
  match compare a b with Gt => a | _ => b end.

(** [Buffer.concat]. *)
Definition concat (bs : list t) : t := List.concat bs.

End Buffer.

Module Hex.

Local Open Scope char_scope.

(** The lower-case digit of a value below 16. *)
Definition digit (n : N) : ascii :=
  match n with
  | 0%N => "0" | 1%N => "1" | 2%N => "2" | 3%N => "3"
  | 4%N => "4" | 5%N => "5" | 6%N => "6" | 7%N => "7"
  | 8%N => "8" | 9%N => "9" | 10%N => "a" | 11%N => "b"
  | 12%N => "c" | 13%N => "d" | 14%N => "e" | _ => "f"
  end.

(** The value of a hexadecimal digit of either case. *)
Definition value (c : ascii) : option N :=
  match c with
  | "0" => Some 0%N | "1" => Some 1%N | "2" => Some 2%N | "3" => Some 3%N
  | "4" => Some 4%N | "5" => Some 5%N | "6" => Some 6%N | "7" => Some 7%N
  | "8" => Some 8%N | "9" => Some 9%N
  | "a" => Some 10%N | "b" => Some 11%N | "c" => Some 12%N
  | "d" => Some 13%N | "e" => Some 14%N | "f" => Some 15%N
  | "A" => Some 10%N | "B" => Some 11%N | "C" => Some 12%N
  | "D" => Some 13%N | "E" => Some 14%N | "F" => Some 15%N
  | _ => None
  end.

Definition is_digit (c : ascii) : bool :=
  match value c with Some _ => true | None => false end.

Definition byte_of_N (n : N) : byte :=
  match Byte.of_N n with Some b => b | None => x00 end.

(** The byte written by two hexadecimal digits. *)
Definition pair (hi lo : ascii) : option byte :=
  match value hi, value lo with
  | Some h, Some l => Some (byte_of_N (16 * h + l))
  | _, _ => None
  end.

Local Open Scope string_scope.

(** [buf.toString('hex')]: two lower-case digits per byte. *)
Fixpoint encode (b : Buffer.t) : string :=
  match b with
  | [] => ""
  | x :: b' =>
      String (digit (Byte.to_N x / 16))
        (String (digit (Byte.to_N x mod 16)) (encode b'))
  end.

(** [Buffer.from(s, 'hex')]: decodes pairs of digits and stops, keeping
    what was decoded, at the first pair that is not two hexadecimal digits
    (a trailing single character included). It does not throw. *)
Fixpoint decode (s : string) : Buffer.t :=
  match s with
  | String hi (String lo s') =>
      match pair hi lo with
      | Some x => x :: decode s'
      | None => []
      end
  | _ => []
  end.

(** The strict reading of a digit string: every character a digit and
    their number even. *)
Fixpoint parse (s : string) : option Buffer.t :=
  match s with
  | "" => Some []
  | String hi (String lo s') =>
      match pair hi lo, parse s' with
      | Some x, Some b => Some (x :: b)
      | _, _ => None
      end
  | String _ "" => None
  end.

(** [s.slice(n)] for [0 <= n]: the string without its first [n]
    characters. *)
Fixpoint slice (n : nat) (s : string) : string :=
  match n, s with
  | O, _ => s
  | S n', String _ s' => slice n' s'
  | S _, "" => ""
  end.

(** ['0x' + buf.toString('hex')]. *)
Definition hexlify (b : Buffer.t) : string := "0x" ++ encode b.

Definition all_digits (s : string) : bool :=
  forallb is_digit (list_ascii_of_string s).

End Hex.

(** ** Keccak-256

    [keccak256] of [ethers/lib/utils] hashes with Keccak-256 (the sponge
    over Keccak-f[1600] with rate 136 bytes, capacity 512 bits and the
    original [0x01 .. 0x80] padding). The permutation works on 25 lanes of
    64 bits, kept here as a list of [N] in the order [x + 5 * y]. *)

Module Keccak.

Local Open Scope N_scope.

Definition lane_mask : N := 0xFFFFFFFFFFFFFFFF.

Definition rotl (w : N) (r : N) : N :=
  N.lor (N.land (N.shiftl w r) lane_mask) (N.shiftr w (64 - r)).

Definition lane (st : list N) (x y : nat) : N :=
  nth ((x mod 5) + 5 * (y mod 5))%nat st 0.

Definition round_constants : list N :=
  [ 0x0000000000000001; 0x0000000000008082; 0x800000000000808A;
    0x8000000080008000; 0x000000000000808B; 0x0000000080000001;
    0x8000000080008081; 0x8000000000008009; 0x000000000000008A;
    0x0000000000000088; 0x0000000080008009; 0x000000008000000A;
    0x000000008000808B; 0x800000000000008B; 0x8000000000008089;
    0x8000000000008003; 0x8000000000008002; 0x8000000000000080;
    0x000000000000800A; 0x800000008000000A; 0x8000000080008081;
    0x8000000000008080; 0x0000000080000001; 0x8000000080008008 ].

(** Rotation offsets, in lane order [x + 5 * y]. *)
Definition rotation_offsets : list N :=
  [  0;  1; 62; 28; 27;
    36; 44;  6; 55; 20;
     3; 10; 43; 25; 39;
    41; 45; 15; 21;  8;
    18;  2; 61; 56; 14 ].

Definition coords : list (nat * nat) :=
  flat_map (fun y => map (fun x => (x, y)) (seq 0 5)) (seq 0 5).

Definition theta (st : list N) : list N :=
  let c := fun x =>
    N.lxor (lane st x 0) (N.lxor (lane st x 1) (N.lxor (lane st x 2)
      (N.lxor (lane st x 3) (lane st x 4)))) in
  let d := fun x => N.lxor (c (x + 4)%nat) (rotl (c (x + 1)%nat) 1) in
  map (fun '(x, y) => N.lxor (lane st x y) (d x)) coords.

(** rho and pi together: lane [(x, y)] of the result is lane
    [(x + 3 * y, x)] of the argument, rotated by that lane's offset. *)
Definition rho_pi (st : list N) : list N :=
  map (fun '(x, y) =>
         let sx := ((x + 3 * y) mod 5)%nat in
         let sy := x in
         rotl (lane st sx sy) (nth (sx + 5 * sy)%nat rotation_offsets 0))
      coords.

Definition chi (st : list N) : list N :=
  map (fun '(x, y) =>
         N.lxor (lane st x y)
           (N.land (N.lxor (lane st (x + 1) y) lane_mask)
                   (lane st (x + 2) y)))
      coords.

Definition iota (rc : N) (st : list N) : list N :=
  match st with
  | [] => []
  | a :: st' => N.lxor a rc :: st'
  end.

Definition round (st : list N) (rc : N) : list N :=
  iota rc (chi (rho_pi (theta st))).

Definition keccak_f (st : list N) : list N :=
  fold_left round round_constants st.

(** Little-endian lanes of a block of bytes, and back. *)
Fixpoint lane_of_bytes (bs : list byte) : N :=
  match bs with
  | [] => 0
  | b :: bs' => Byte.to_N b + 256 * lane_of_bytes bs'
  end.

Fixpoint lanes_of_bytes (n : nat) (bs : list byte) : list N :=
  match n with
  | O => []
  | S n' => lane_of_bytes (firstn 8 bs) :: lanes_of_bytes n' (skipn 8 bs)
  end.

Fixpoint bytes_of_lane (n : nat) (w : N) : list byte :=
  match n with
  | O => []
  | S n' => Hex.byte_of_N (w mod 256) :: bytes_of_lane n' (w / 256)
  end.

Definition rate : nat := 136.

(** Padding to a multiple of the rate: [0x01], zeros, and [0x80] added
    into the last byte. *)
Definition pad (msg : list byte) : list byte :=
  let q := (rate - (List.length msg mod rate))%nat in
  match q with
  | 1%nat => msg ++ [x81]
  | _ => msg ++ [x01] ++ repeat x00 (q - 2) ++ [x80]
  end.

Fixpoint xor_lanes (st blk : list N) : list N :=
  match st, blk with
  | a :: st', b :: blk' => N.lxor a b :: xor_lanes st' blk'
  | _, [] => st
  | [], _ => []
  end.

Fixpoint absorb (blocks : nat) (st : list N) (msg : list byte) : list N :=
  match blocks with
  | O => st
  | S n =>
      absorb n
        (keccak_f (xor_lanes st (lanes_of_bytes 17 (firstn rate msg))))
        (skipn rate msg)
  end.

Definition squeeze (st : list N) : list byte :=
  flat_map (bytes_of_lane 8) (firstn 4 st).

Definition keccak256 (msg : list byte) : list byte :=
  let padded := pad msg in
  squeeze (absorb (List.length padded / rate) (repeat 0 25) padded).

End Keccak.

(** ** The ethers utilities used by [utils.js] *)

Module Ethers.

Local Open Scope string_scope.

(** [arrayify] of a string: the text must be [0x] followed by an even
    number of hexadecimal digits, otherwise the call throws. *)
Definition arrayify (s : string) : result Buffer.t :=
  match s with
  | String "0" (String "x" body) =>
      if Hex.all_digits body then
        match Hex.parse body with
        | Some b => Ok b
        | None => Throw (Error "hex data is odd-length")
        end
      else Throw (Error "invalid arrayify value")
  | _ => Throw (Error "invalid arrayify value")
  end.

(** [keccak256(data)]: the digest of the bytes written by [data], as a
    [0x] string of 64 lower-case digits. *)
Definition keccak256 (data : string) : result string :=
  let* bytes := arrayify data in
  Ok (Hex.hexlify (Keccak.keccak256 bytes)).

Definition lower (c : ascii) : ascii :=
  let n := nat_of_ascii c in
  if ((65 <=? n) && (n <=? 90))%nat then ascii_of_nat (n + 32) else c.

Definition upper (c : ascii) : ascii :=
  let n := nat_of_ascii c in
  if ((97 <=? n) && (n <=? 122))%nat then ascii_of_nat (n - 32) else c.

(** [s.toLowerCase()] on ASCII text. *)
Definition toLowerCase (s : string) : string :=
  string_of_list_ascii (map lower (list_ascii_of_string s)).

(** The loop of [getChecksumAddress]: digit [i] is upper-cased when
    nibble [i] of the hash is at least 8. *)
Fixpoint checksum_chars (chars : list ascii) (hashed : list byte)
  : list ascii :=
  match chars, hashed with
  | c1 :: c2 :: chars', h :: hashed' =>
      (if (8 <=? Byte.to_N h / 16)%N then upper c1 else c1)
        :: (if (8 <=? Byte.to_N h mod 16)%N then upper c2 else c2)
        :: checksum_chars chars' hashed'
  | _, _ => chars
  end.

Definition getChecksumAddress (address : string) : string :=
  let address := toLowerCase address in
  let chars := list_ascii_of_string (Hex.slice 2 address) in
  let expanded := map byte_of_ascii chars in
  let hashed := Keccak.keccak256 expanded in
  "0x" ++ string_of_list_ascii (checksum_chars chars hashed).

(** [address.substring(0, 2) === "0x"]. *)
Definition has_0x (s : string) : bool :=
  match s with
  | String c1 (String c2 _) => Ascii.eqb c1 "0" && Ascii.eqb c2 "x"
  | _ => false
  end.

(** [/^(0x)?[0-9a-fA-F]{40}$/]. *)
Definition is_hex_address (s : string) : bool :=
  let body := if has_0x s then Hex.slice 2 s else s in
  (String.length body =? 40)%nat && Hex.all_digits body.

Definition is_upper_hex (c : ascii) : bool :=
  let n := nat_of_ascii c in ((65 <=? n) && (n <=? 70))%nat.

Definition is_lower_hex (c : ascii) : bool :=
  let n := nat_of_ascii c in ((97 <=? n) && (n <=? 102))%nat.

(** [/([A-F].*[a-f])|([a-f].*[A-F])/]: a letter of each case occurs. *)
Definition is_mixed_case (s : string) : bool :=
  existsb is_upper_hex (list_ascii_of_string s)
  && existsb is_lower_hex (list_ascii_of_string s).

(** [getAddress] on the hexadecimal form: accepts 40 hexadecimal digits
    with or without [0x], all of one case or carrying the right checksum,
    and returns the checksummed text. Two things are left out. The ICAP
    form ([XE], two digits, 30 or 31 letters and digits), which ethers
    converts to an address, is not read: on such a text the result below
    says nothing about the code. And of an error only the reason is kept,
    not the message ethers builds around it (argument, value, code,
    version). *)
Definition getAddress (address : string) : result string :=
  if is_hex_address address then
    let address := if has_0x address then address else "0x" ++ address in
    let result := getChecksumAddress address in
    if is_mixed_case address && negb (String.eqb result address)
    then Throw (Error "bad address checksum")
    else Ok result
  else Throw (Error "invalid address").

(** The 20 bytes of an address text accepted by [getAddress]. *)
Definition address_bytes (address : string) : Buffer.t :=
  Hex.decode (Hex.slice 2 address).

(** [defaultAbiCoder.encode(['address'], [address])]: the address
    left-padded with zeros to one 32-byte word, as a [0x] string. When
    [getAddress] throws, the coder throws an error of its own whose message
    wraps the one it caught; here the reason stands for both, so a [Throw]
    tells that the call fails, not what its message is. *)
Definition abi_encode_address (address : string) : result string :=
  let* checked := getAddress address in
  Ok (Hex.hexlify (repeat x00 12 ++ address_bytes checked)%list).

End Ethers.

(** ** merkletreejs

    The [MerkleTree] class of the merkletreejs package, a dependency of
    [utils.js] whose source is not part of the repository. The model covers
    the class as [utils.js] constructs it: hash function given by the
    caller, options [{ hashLeaves: false, sortPairs: true }] and every other
    option at its default (no leaf sorting, no duplication of an odd node,
    no Bitcoin mode, no complete tree), and the three methods the wrapper
    calls, [getRoot], [getProof(leaf)] and [verify]. The constructor accepts
    any array of leaves, the empty one included. *)

Module MerkleTree.

Inductive position : Type := left_ | right_.

(** An element of the array [getProof] returns. *)
Record proof_item : Type :=
  { item_position : position; data : Buffer.t }.

(** What [verify] may find in a proof array: a [Buffer], an object with
    [position] and [data], or a value that is neither (a number, a
    boolean, [null], [undefined]). *)
Inductive proof_node : Type :=
| NodeBuffer (b : Buffer.t)
| NodeObject (p : proof_item)
| NodeOther.

Record t : Type :=
  { leaves : list Buffer.t; layers : list (list Buffer.t) }.

Section WithHash.

Variable hashFn : Buffer.t -> Buffer.t.

(** [combined = [left, right]; combined.sort(Buffer.compare)]. *)
Definition sort_pair (l r : Buffer.t) : list Buffer.t :=
  match Buffer.compare l r with
  | Gt => [r; l]
  | _ => [l; r]
  end.

Definition hash_pair (l r : Buffer.t) : Buffer.t :=
  hashFn (Buffer.concat (sort_pair l r)).

(** One pass of the [for (i = 0; i < nodes.length; i += 2)] loop of
    [createHashes]: adjacent nodes are combined, and a last node
    without a partner is pushed as it is. *)
Fixpoint next_layer (nodes : list Buffer.t) : list Buffer.t :=
  match nodes with
  | l :: r :: rest => hash_pair l r :: next_layer rest
  | [l] => [l]
  | [] => []
  end.

(** [createHashes]: [layers = [nodes]], then
    [while (nodes.length > 1)] the next layer is pushed. *)
Equations? createHashes (nodes : list Buffer.t) : list (list Buffer.t)
  by wf (List.length nodes) lt :=
  createHashes nodes with le_lt_dec (List.length nodes) 1 := {
    | left _ => [nodes]
    | right _ => nodes :: createHashes (next_layer nodes) }.
Proof.
  assert (shrink : forall n (ns : list Buffer.t),
             List.length ns <= n ->
             List.length (next_layer ns) <= List.length ns).
  { induction n as [n IH] using lt_wf_ind.
    intros [|a [|b rest]] Hn; cbn in *; try lia.
    specialize (IH (List.length rest) ltac:(lia) rest (le_n _)). lia. }
  destruct nodes as [|a [|b rest]]; cbn in *; try lia.
  specialize (shrink _ rest (le_n _)). lia.
Qed.

(** [new MerkleTree(leaves, hashFn, options)]. *)
Definition make (leaves : list Buffer.t) : t :=
  {| leaves := leaves; layers := createHashes leaves |}.

(** [getRoot()]: the first node of the last layer, or an empty buffer
    when there is none. *)
Definition getRoot (tree : t) : Buffer.t :=
  match layers tree with
  | [] => []
  | l0 :: ls => hd [] (last ls l0)
  end.

(** The search of [getProof(leaf)] called without an index: the loop
    runs over all leaves and keeps the last one equal to [leaf];
    [-1] when there is none. *)
Fixpoint find_leaf (leaf : Buffer.t) (ls : list Buffer.t) (i index : Z)
  : Z :=
  match ls with
  | [] => index
  | x :: ls' =>
      find_leaf leaf ls' (i + 1)%Z
        (if Buffer.eqb leaf x then i else index)
  end.

(** The walk over the layers from position [index] of layer 0. *)
Fixpoint proof_walk (lys : list (list Buffer.t)) (index : nat)
  : list proof_item :=
  match lys with
  | [] => []
  | layer :: lys' =>
      let isRightNode := Nat.odd index in
      let pairIndex := if isRightNode then index - 1 else index + 1 in
      let rest := proof_walk lys' (index / 2) in
      match nth_error layer pairIndex with
      | Some sibling =>
          {| item_position := if isRightNode then left_ else right_;
             data := sibling |} :: rest
      | None => rest
      end
  end.

Definition getProof (tree : t) (leaf : Buffer.t) : list proof_item :=
  let index := find_leaf leaf (leaves tree) 0%Z (-1)%Z in
  if (index <=? -1)%Z then []
  else proof_walk (layers tree) (Z.to_nat index).

(** One step of [verify] under [sortPairs]. *)
Definition verify_step (hash data : Buffer.t) : Buffer.t :=
  match Buffer.compare hash data with
  | Lt => hashFn (Buffer.concat [hash; data])
  | _ => hashFn (Buffer.concat [data; hash])
  end.

Fixpoint verify_loop (proof : list proof_node) (hash : Buffer.t)
  : result Buffer.t :=
  match proof with
  | [] => Ok hash
  | node :: proof' =>
      match node with
      | NodeBuffer d => verify_loop proof' (verify_step hash d)
      | NodeObject p => verify_loop proof' (verify_step hash (data p))
      | NodeOther =>
          Throw (Error "Expected node to be of type string or object")
      end
  end.

(** [verify(proof, targetNode, root)] on an array and two buffers, for
    which the guard [!Array.isArray(proof) || !targetNode || !root] does
    not fire (a buffer, even an empty one, is truthy). *)
Definition verify (proof : list proof_node) (targetNode root : Buffer.t)
  : result bool :=
  let* hash := verify_loop proof targetNode in
  Ok (Buffer.eqb hash root).

End WithHash.

End MerkleTree.

(** ** The wrapper of [utils.js] *)

Module CustomMerkleTree.

Local Open Scope string_scope.

(** The object state: [values], [leafEncoding], [tree] ([null] until
    initialised), [leaves] and [initialized]. *)
Record t : Type :=
  { values : list (list string);
    leafEncoding : list string;
    tree : option MerkleTree.t;
    leaves : list Buffer.t;
    initialized : bool }.

Definition new (values : list (list string)) (leafEncoding : list string)
  : t :=
  {| values := values;
     leafEncoding := leafEncoding;
     tree := None;
     leaves := [];
     initialized := false |}.

(** [leafEncoding.includes('address')]. *)
Definition includes (x : string) (l : list string) : bool :=
  existsb (String.eqb x) l.

(** [hashLeaf(value)]. With the address encoding the leaf is
    [keccak256(keccak256(abi.encode(value[0])))]. Otherwise the code
    hashes [JSON.stringify(value)], the text of an array, which starts
    with a bracket: [keccak256] rejects it as it rejects every text that
    is not a [0x] string. *)
Definition hashLeaf (self : t) (value : list string) : result Buffer.t :=
  if includes "address" (leafEncoding self) then
    match value with
    | address :: _ =>
        let* encoded := Ethers.abi_encode_address address in
        let* inner := Ethers.keccak256 encoded in
        let* leaf := Ethers.keccak256 inner in
        Ok (Hex.decode (Hex.slice 2 leaf))
    | [] => Throw (Error "invalid address")
    end
  else Throw (Error "invalid arrayify value").

(** [initialize()]; a rejected promise is a [Throw]. The hash function
    handed to the library is ethers' [keccak256], which the library wraps
    so that it takes and returns buffers: on buffers it is
    [Keccak.keccak256]. *)
Definition initialize (self : t) : result t :=
  if initialized self then Ok self
  else
    let* lvs := mapM (hashLeaf self) (values self) in
    Ok {| values := values self;
          leafEncoding := leafEncoding self;
          tree := Some (MerkleTree.make Keccak.keccak256 lvs);
          leaves := lvs;
          initialized := true |}.

(** The [root] getter; [None] is [null]. *)
Definition root (self : t) : option string :=
  match initialized self, tree self with
  | true, Some tr => Some (Hex.hexlify (MerkleTree.getRoot tr))
  | _, _ => None
  end.

(** [getProof(index)] for an integer [index]. *)
Definition getProof (self : t) (index : Z) : result (list string) :=
  if negb (initialized self) then
    Throw (Error "Tree not initialized. Call initialize() first.")
  else if ((index <? 0) || (index >=? Z.of_nat (List.length (values self))))%Z
  then Throw (Error "Index out of bounds")
  else
    match nth_error (leaves self) (Z.to_nat index), tree self with
    | _, None => Throw (Error "Cannot read properties of null")
    | None, Some _ => Throw (Error "leaf is required")
    | Some leaf, Some tr =>
        let proof := MerkleTree.getProof tr leaf in
        Ok (map (fun p => Hex.hexlify (MerkleTree.data p)) proof)
    end.

(** [verify(proof, root, leaf)] on an array of strings and two strings. *)
Definition verify (self : t) (proof : list string) (root leaf : string)
  : result bool :=
  match initialized self, tree self with
  | true, Some tr =>
      let proofBuffers :=
        map (fun p => MerkleTree.NodeBuffer (Hex.decode (Hex.slice 2 p)))
          proof in
      let leafBuffer := Hex.decode (Hex.slice 2 leaf) in
      let rootBuffer := Hex.decode (Hex.slice 2 root) in
      MerkleTree.verify Keccak.keccak256 proofBuffers leafBuffer rootBuffer
  | _, _ => Ok false
  end.

End CustomMerkleTree.

Definition wrapAddresses (allowedAddresses : list string)
  : list (list string) :=
  map (fun addr => [addr]) allowedAddresses.

Definition buildMerkleTree (allowedAddresses : list string)
  : result CustomMerkleTree.t :=
  let wrappedAddresses := wrapAddresses allowedAddresses in
  let tree := CustomMerkleTree.new wrappedAddresses ["address"%string] in
  CustomMerkleTree.initialize tree.

(** [Array.prototype.findIndex]: the first position whose element
    satisfies the predicate, [-1] when there is none. *)
Fixpoint findIndex {A : Type} (p : A -> bool) (l : list A) : Z :=
  match l with
  | [] => (-1)%Z
  | a :: l' =>
      if p a then 0%Z
      else
        let i := findIndex p l' in
        if (i <? 0)%Z then (-1)%Z else (i + 1)%Z
  end.

(** [addr[0] === address]. *)
Definition first_is (address : string) (addr : list string) : bool :=
  match addr with
  | a :: _ => String.eqb a address
  | [] => false
  end.

Definition getMerkleProof (tree : CustomMerkleTree.t) (address : string)
  (allowedAddresses : list string) : result (list string) :=
  let index := findIndex (first_is address) (wrapAddresses allowedAddresses) in
  CustomMerkleTree.getProof tree index.

(** ** The allowlist check of [NFT.sol] *)

(** OpenZeppelin's [MerkleProof] over [bytes32] values, here 32-byte
    buffers whose numeric order is the byte-wise one. *)
Module MerkleProof.

(** [_hashPair(a, b) = a < b ? keccak256(a, b) : keccak256(b, a)]. *)
Definition hashPair (a b : Buffer.t) : Buffer.t :=
  match Buffer.compare a b with
  | Lt => Keccak.keccak256 (a ++ b)
  | _ => Keccak.keccak256 (b ++ a)
  end.

Definition processProof (proof : list Buffer.t) (leaf : Buffer.t)
  : Buffer.t :=
  fold_left hashPair proof leaf.

Definition verify (proof : list Buffer.t) (root leaf : Buffer.t) : bool :=
  Buffer.eqb (processProof proof leaf) root.

End MerkleProof.

Module NFT.

(** The part of the contract storage the allowlist check reads. *)
Record state : Type := { allowedAddressesRoot : Buffer.t }.

Definition setAllowedAddressesRoot (st : state) (_root : Buffer.t) : state :=
  {| allowedAddressesRoot := _root |}.

(** [isAddressAllowed]: the leaf is [keccak256(abi.encodePacked(_address))],
    the hash of the 20 bytes of the address. *)
Definition isAddressAllowed (st : state) (_address : Buffer.t)
  (_merkleProof : list Buffer.t) : bool :=
  let leaf := Keccak.keccak256 _address in
  MerkleProof.verify _merkleProof (allowedAddressesRoot st) leaf.

End NFT.

(** ** Sample allowlist entries *)

Definition addrA : string := "0xaaaaaaaaaaaaaaaaaaaaaaaaaaaaaaaaaaaaaa01".
Definition addrB : string := "0xbbbbbbbbbbbbbbbbbbbbbbbbbbbbbbbbbbbbbb02".
Definition addrC : string := "0xcccccccccccccccccccccccccccccccccccccc03".

(** The allowlist the application installs: the first two Hardhat
    accounts, which are also the deployer and the minter of the tests. *)
Definition account0 : string := "0xf39Fd6e51aad88F6F4ce6aB8827279cffFb92266".
Definition account1 : string := "0x70997970C51812dc3A010C7d01b50e0d17dc79C8".

(** [addrA] written with upper-case digits. *)
Definition addrA_upper : string :=
  "0xAAAAAAAAAAAAAAAAAAAAAAAAAAAAAAAAAAAAAA01".

(** The leaf digest the wrapper built by [buildMerkleTree] computes for an
    address: [hashLeaf([address])] under the encoding [['address']]. *)
Definition addressLeaf (address : string) : result Buffer.t :=
  CustomMerkleTree.hashLeaf
    (CustomMerkleTree.new [] ["address"%string]) [address].

(** The text of a proof returned by the library, as the wrapper's
    [getProof] renders it. *)
Definition render (proof : list MerkleTree.proof_item) : list string :=
  map (fun p => Hex.hexlify (MerkleTree.data p)) proof.

(** The leaf digests of the sample addresses, computed once. *)
Definition leaf_or_empty (address : string) : Buffer.t :=
  match addressLeaf address with
  | Ok l => l
  | Throw _ => []
  end.

Definition leafA : Buffer.t := Eval vm_compute in leaf_or_empty addrA.
Definition leafB : Buffer.t := Eval vm_compute in leaf_or_empty addrB.

(** The position a node is paired with in its layer, as [getProof]
    computes [pairIndex]. *)
Definition sibling (index : nat) : nat :=
  if Nat.odd index then index - 1 else index + 1.

(** The object [initialize()] leaves behind for the allowlist [L] once
    its leaves [lvs] are hashed. *)
Definition built (L : list string) (lvs : list Buffer.t)
  : CustomMerkleTree.t :=
  {| CustomMerkleTree.values := wrapAddresses L;
     CustomMerkleTree.leafEncoding := ["address"%string];
     CustomMerkleTree.tree := Some (MerkleTree.make Keccak.keccak256 lvs);
     CustomMerkleTree.leaves := lvs;
     CustomMerkleTree.initialized := true |}.

(** An address text the encoder accepts. *)
Definition valid_address (address : string) : bool :=
  match Ethers.getAddress address with
  | Ok _ => true
  | Throw _ => false
  end.

(** [[0-9]] and [[0-9A-Za-z]]. *)
Definition is_decimal (c : ascii) : bool :=
  let n := nat_of_ascii c in ((48 <=? n) && (n <=? 57))%nat.

Definition is_alphanumeric (c : ascii) : bool :=
  let n := nat_of_ascii c in
  (((48 <=? n) && (n <=? 57)) || ((65 <=? n) && (n <=? 90))
   || ((97 <=? n) && (n <=? 122)))%nat.

(** [/^XE[0-9]{2}[0-9A-Za-z]{30,31}$/], the texts [getAddress] of ethers
    reads as ICAP addresses. *)
Definition is_icap_form (s : string) : bool :=
  match list_ascii_of_string s with
  | x :: e :: d1 :: d2 :: rest =>
      Ascii.eqb x "X" && Ascii.eqb e "E" && is_decimal d1 && is_decimal d2
      && ((List.length rest =? 30) || (List.length rest =? 31))%nat
      && forallb is_alphanumeric rest
  | _ => false
  end.

(** The wrapper and the library tree of the allowlist that names
    [addrA] twice, [[addrA; addrB; addrA]]. *)
Definition treeABA : CustomMerkleTree.t :=
  built [addrA; addrB; addrA] [leafA; leafB; leafA].

Definition mtABA : MerkleTree.t :=
  MerkleTree.make Keccak.keccak256 [leafA; leafB; leafA].

(** The path of a proof from the client to the contract, as the mint
    form and the tests walk it: the tree is built from the allowlist, its
    root is stored with [setAllowedAddressesRoot], the proof of
    [getMerkleProof] is passed to the contract as [bytes32[]], and the
    contract checks the sender with [isAddressAllowed]. The first component
    is the answer of the wrapper's own [verify] for the sender's leaf, the
    second the answer of the contract. *)
Definition allowlist_check (st : NFT.state) (L : list string)
  (sender : string) : result (bool * bool) :=
  let* tree := buildMerkleTree L in
  let* proof := getMerkleProof tree sender L in
  let* leaf := CustomMerkleTree.hashLeaf tree [sender] in
  match CustomMerkleTree.root tree with
  | None => Throw (Error "no root")
  | Some root =>
      let* accepted :=
        CustomMerkleTree.verify tree proof root (Hex.hexlify leaf) in
      let* root32 := Ethers.arrayify root in
      let* proof32 := mapM Ethers.arrayify proof in
      let* checked := Ethers.getAddress sender in
      let st' := NFT.setAllowedAddressesRoot st root32 in
      Ok (accepted,
          NFT.isAddressAllowed st' (Ethers.address_bytes checked) proof32)
  end.

(** ** The byte-array variant of the helpers

    A second version of [utils.js] kept in the repository returns leaves as
    [Uint8Array]s and converts between bytes and text with two helpers of
    its own, [hexToBytes] and [bytesToHex], instead of [Buffer]. *)

Module ByteArray.

Local Open Scope string_scope.

(** The white space [parseInt] skips, among the code units below 256:
    tab, line feed, vertical tab, form feed, carriage return, space and
    no-break space. *)
Definition is_white_space (c : ascii) : bool :=
  let n := nat_of_ascii c in
  ((9 <=? n) && (n <=? 13) || (n =? 32) || (n =? 160))%nat.

Fixpoint trim_start (s : string) : string :=
  match s with
  | String c s' => if is_white_space c then trim_start s' else s
  | "" => ""
  end.

(** A leading sign is removed; the flag tells whether it was a minus. *)
Definition strip_sign (s : string) : bool * string :=
  match s with
  | String c s' =>
      if Ascii.eqb c "-" then (true, s')
      else if Ascii.eqb c "+" then (false, s')
      else (false, s)
  | "" => (false, "")
  end.

(** With radix 16 a leading [0x] or [0X] is removed. *)
Definition strip_0x (s : string) : string :=
  match s with
  | String c1 (String c2 s') =>
      if Ascii.eqb c1 "0" && (Ascii.eqb c2 "x" || Ascii.eqb c2 "X")
      then s' else s
  | _ => s
  end.

(** The value of the longest prefix of hexadecimal digits, and whether
    that prefix is empty. *)
Fixpoint digits_value (s : string) (acc : N) : N :=
  match s with
  | String c s' =>
      match Hex.value c with
      | Some d => digits_value s' (16 * acc + d)
      | None => acc
      end
  | "" => acc
  end.

Definition starts_with_digit (s : string) : bool :=
  match s with
  | String c _ => Hex.is_digit c
  | "" => false
  end.

(** [parseInt(s, 16)]; [None] is [NaN]. *)
Definition parseInt16 (s : string) : option Z :=
  let '(negative, s1) := strip_sign (trim_start s) in
  let s2 := strip_0x s1 in
  if starts_with_digit s2 then
    let n := Z.of_N (digits_value s2 0) in
    Some (if negative then (- n)%Z else n)
  else None.

(** Storing a number in a [Uint8Array]: [NaN] becomes 0 and an integer is
    taken modulo 256. *)
Definition to_uint8 (v : option Z) : byte :=
  match v with
  | None => x00
  | Some z => Hex.byte_of_N (Z.to_N (z mod 256))
  end.

(** [hex.replace(/^0x/, '')]. *)
Definition clean (hex : string) : string :=
  if Ethers.has_0x hex then Hex.slice 2 hex else hex.

(** The loop of [hexToBytes]: one byte per two characters. The array has
    [cleanHex.length / 2] elements, rounded down, so the write for a last
    single character falls outside it and is dropped. *)
Fixpoint pair_bytes (s : string) : Buffer.t :=
  match s with
  | String a (String b s') =>
      to_uint8 (parseInt16 (String a (String b ""))) :: pair_bytes s'
  | _ => []
  end.

Definition hexToBytes (hex : string) : Buffer.t :=
  pair_bytes (clean hex).

(** [b.toString(16)]: one or two lower-case digits. *)
Definition toString16 (b : byte) : string :=
  let n := Byte.to_N b in
  if (n <? 16)%N then String (Hex.digit n) ""
  else String (Hex.digit (n / 16)) (String (Hex.digit (n mod 16)) "").

(** [s.padStart(2, '0')]. *)
Definition padStart2 (s : string) : string :=
  match s with
  | "" => "00"
  | String c "" => String "0" (String c "")
  | _ => s
  end.

Definition bytesToHex (bytes : Buffer.t) : string :=
  String.concat "" (map (fun b => padStart2 (toString16 b)) bytes).

(** [hashLeaf] of this variant: as in [utils.js], with [hexToBytes(leaf)]
    in place of [Buffer.from(leaf.slice(2), 'hex')]. *)
Definition hashLeaf (self : CustomMerkleTree.t) (value : list string)
  : result Buffer.t :=
  if CustomMerkleTree.includes "address" (CustomMerkleTree.leafEncoding self)
  then
    match value with
    | address :: _ =>
        let* encoded := Ethers.abi_encode_address address in
        let* inner := Ethers.keccak256 encoded in
        let* leaf := Ethers.keccak256 inner in
        Ok (hexToBytes leaf)
    | [] => Throw (Error "invalid address")
    end
  else Throw (Error "invalid arrayify value").

End ByteArray.

(** ** Minting in [NFT.sol]

    [mint] and the owner functions around it. The contract inherits its
    token ledger from [ERC721Enumerable] and its owner check from
    [Ownable], and its allowlist modifier reads a mapping
    [allowedAddresses] that [NFT.sol] does not declare; these are not in
    the sources at hand and are taken as parameters. Values of type
    [uint256] are integers from 0 to [uint256_max], and arithmetic on them
    reverts on overflow as Solidity 0.8 does. *)

Module Minting.

Local Open Scope string_scope.
Local Open Scope Z_scope.

Definition uint256_max : Z := 2 ^ 256 - 1.

Definition is_uint256 (x : Z) : Prop := 0 <= x <= uint256_max.

(** The failure of checked arithmetic. *)
Definition overflow : exn := Error "panic: arithmetic overflow (0x11)".

Definition checked_add (a b : Z) : result Z :=
  if a + b <=? uint256_max then Ok (a + b) else Throw overflow.

Definition checked_mul (a b : Z) : result Z :=
  if a * b <=? uint256_max then Ok (a * b) else Throw overflow.

(** [require(condition, reason)]. *)
Definition require (condition : bool) (reason : string) : result unit :=
  if condition then Ok tt else Throw (Error reason).

(** The state variables of the contract; the root of the allowlist is the
    part already described by [NFT.state]. *)
Record storage : Type :=
  { cost : Z;
    maxSupply : Z;
    allowMintingOn : Z;
    maxMintAmountPerTx : Z;
    paused : bool;
    allowlist : NFT.state }.

Inductive event : Type :=
| Mint (mintAmount : Z) (minter : Buffer.t)
| Paused (account : Buffer.t)
| Unpaused (account : Buffer.t)
| AllowedAddressesRootSet (root : Buffer.t).

Definition set_paused (st : storage) (p : bool) : storage :=
  {| cost := cost st;
     maxSupply := maxSupply st;
     allowMintingOn := allowMintingOn st;
     maxMintAmountPerTx := maxMintAmountPerTx st;
     paused := p;
     allowlist := allowlist st |}.

Definition set_cost (st : storage) (c : Z) : storage :=
  {| cost := c;
     maxSupply := maxSupply st;
     allowMintingOn := allowMintingOn st;
     maxMintAmountPerTx := maxMintAmountPerTx st;
     paused := paused st;
     allowlist := allowlist st |}.

Definition set_allowlist (st : storage) (a : NFT.state) : storage :=
  {| cost := cost st;
     maxSupply := maxSupply st;
     allowMintingOn := allowMintingOn st;
     maxMintAmountPerTx := maxMintAmountPerTx st;
     paused := paused st;
     allowlist := a |}.

Section Inherited.

(** The ledger of [ERC721Enumerable]: its state, [totalSupply()] and
    [_safeMint(to, tokenId)], which may revert. *)
Variable tokens : Type.
Variable totalSupply : tokens -> Z.
Variable _safeMint : tokens -> Buffer.t -> Z -> result tokens.

(** The mapping read by [onlyAllowedAddress]. *)
Variable allowedAddresses : Buffer.t -> bool.

(** The modifier [onlyOwner] of [Ownable], applied to [msg.sender]. *)
Variable onlyOwner : Buffer.t -> result unit.

(** The loop [for (i = 1; i <= _mintAmount; i++) _safeMint(msg.sender,
    supply + i)], with [n] passes left. *)
Fixpoint mint_loop (n : nat) (i supply : Z) (to : Buffer.t) (tk : tokens)
  : result tokens :=
  match n with
  | O => Ok tk
  | S n' =>
      let* id := checked_add supply i in
      let* tk' := _safeMint tk to id in
      let* i' := checked_add i 1 in
      mint_loop n' i' supply to tk'
  end.

(** [mint(_mintAmount, _merkleProof)] called by [sender] with [value] wei
    in a block stamped [timestamp]: the modifiers [whenNotPaused] and
    [onlyAllowedAddress], then the body. *)
Definition mint (st : storage) (tk : tokens) (sender : Buffer.t)
  (value timestamp : Z) (_mintAmount : Z) (_merkleProof : list Buffer.t)
  : result (tokens * list event) :=
  let* _ := require (negb (paused st)) "Contract is paused" in
  let* _ :=
    require (NFT.isAddressAllowed (allowlist st) sender _merkleProof
             || allowedAddresses sender)
      "Address not in allowed list" in
  let* _ := require (allowMintingOn st <=? timestamp)
              "Minting not allowed yet" in
  let* _ := require (0 <? _mintAmount)
              "Mint amount must be greater than 0" in
  let* _ := require (_mintAmount <=? maxMintAmountPerTx st)
              "Mint amount exceeds max per transaction" in
  let* price := checked_mul (cost st) _mintAmount in
  let* _ := require (price <=? value) "Insufficient funds" in
  let supply := totalSupply tk in
  let* total := checked_add supply _mintAmount in
  let* _ := require (total <=? maxSupply st) "Max supply exceeded" in
  let* tk' := mint_loop (Z.to_nat _mintAmount) 1 supply sender tk in
  Ok (tk', [Mint _mintAmount sender]).

Definition pause (st : storage) (sender : Buffer.t)
  : result (storage * list event) :=
  let* _ := onlyOwner sender in
  Ok (set_paused st true, [Paused sender]).

Definition unpause (st : storage) (sender : Buffer.t)
  : result (storage * list event) :=
  let* _ := onlyOwner sender in
  Ok (set_paused st false, [Unpaused sender]).

Definition setCost (st : storage) (sender : Buffer.t) (_newCost : Z)
  : result storage :=
  let* _ := onlyOwner sender in
  Ok (set_cost st _newCost).

Definition setAllowedAddressesRoot (st : storage) (sender : Buffer.t)
  (_root : Buffer.t) : result (storage * list event) :=
  let* _ := onlyOwner sender in
  Ok (set_allowlist st (NFT.setAllowedAddressesRoot (allowlist st) _root),
      [AllowedAddressesRootSet _root]).

End Inherited.

(** A ledger to run the contract on: the tokens minted so far with their
    owners, newest first, every mint accepted. *)
Definition ledger : Type := list (Z * Buffer.t).

Definition ledger_supply (tk : ledger) : Z := Z.of_nat (List.length tk).

Definition ledger_mint (tk : ledger) (to : Buffer.t) (id : Z)
  : result ledger :=
  Ok ((id, to) :: tk).

(** An owner check that admits one address. *)
Definition owner_is (owner sender : Buffer.t) : result unit :=
  require (Buffer.eqb owner sender) "Ownable: caller is not the owner".

End Minting.

(** A tree over the single hashes of the two sample accounts, and a
    contract state with the parameters of the tests (cost 10 ether, at
    most 25 tokens, at most 5 per transaction) that stores its root. *)
Definition packed_tree : MerkleTree.t :=
  MerkleTree.make Keccak.keccak256
    (map Keccak.keccak256
       [Ethers.address_bytes account0; Ethers.address_bytes account1]).

Definition sample_storage : Minting.storage :=
  {| Minting.cost := 10 * 10 ^ 18;
     Minting.maxSupply := 25;
     Minting.allowMintingOn := 1700000000;
     Minting.maxMintAmountPerTx := 5;
     Minting.paused := false;
     Minting.allowlist :=
       {| NFT.allowedAddressesRoot := MerkleTree.getRoot packed_tree |} |}.

Definition sample_proof : list Buffer.t :=
  map MerkleTree.data
    (MerkleTree.getProof packed_tree
       (Keccak.keccak256 (Ethers.address_bytes account1))).

Definition sample_owner : Buffer.t := Ethers.address_bytes account0.

(** ** The mint form

    [mintHandler] of the [Mint] component: it asks the wallet for the
    signer, computes the price, reads the user's address, builds the tree
    from the allowlist, takes the user's proof and sends the transaction;
    whatever is thrown on the way ends in one of two alerts. The calls to
    the wallet and to the contract are parameters. *)

Module MintForm.

Local Open Scope string_scope.

(** [message.includes(text)]. *)
Definition includes (text message : string) : bool :=
  match String.index 0 text message with
  | Some _ => true
  | None => false
  end.

(** The [try] block: [signer] is the outcome of [provider.getSigner()],
    [totalCost] of [cost.mul(mintAmount)], [userAddress] of
    [signer.getAddress()]; [allowedAddresses] is the property of the
    component ([None] when it is not given), and [send proof value] is
    [nft.connect(signer).mint(mintAmount, proof, { value })] followed by
    [transaction.wait()]. *)
Definition attempt (signer : result unit) (totalCost : result Z)
  (userAddress : result string) (allowedAddresses : option (list string))
  (send : list string -> Z -> result unit) : result unit :=
  let* _ := signer in
  let* total := totalCost in
  let* user := userAddress in
  match allowedAddresses with
  | None => Throw (Error "Missing allowed addresses or user address")
  | Some allowed =>
      if String.eqb user ""
      then Throw (Error "Missing allowed addresses or user address")
      else
        let* tree := buildMerkleTree allowed in
        let* proof := getMerkleProof tree user allowed in
        send proof total
  end.

(** The alert [mintHandler] shows; [None] when nothing was thrown. *)
Definition mintHandler (signer : result unit) (totalCost : result Z)
  (userAddress : result string) (allowedAddresses : option (list string))
  (send : list string -> Z -> result unit) : option string :=
  match attempt signer totalCost userAddress allowedAddresses send with
  | Ok _ => None
  | Throw (Error message) =>
      if includes "Address not in allowed list" message
      then Some "Your address is not in the allowed list"
      else Some "User rejected or transaction reverted"
  end.

End MintForm.

(** ** The purchase history

    [walletOfOwner] of the contract, over the parts of [ERC721Enumerable]
    it calls, and what the [PurchaseHistory] component keeps of its
    answer. *)

Module Wallet.

Section Inherited.

Variable balanceOf : Buffer.t -> Z.
Variable tokenOfOwnerByIndex : Buffer.t -> Z -> result Z.

(** [walletOfOwner(_owner)]: the tokens at the indices below the
    owner's balance, in order. *)
Definition walletOfOwner (_owner : Buffer.t) : result (list Z) :=
  let ownerTokenCount := balanceOf _owner in
  mapM (fun i => tokenOfOwnerByIndex _owner (Z.of_nat i))
    (seq 0 (Z.to_nat ownerTokenCount)).

End Inherited.

(** [array.slice(start, end)] with its treatment of negative and
    oversized arguments. *)
Definition slice {A : Type} (start end_ : Z) (l : list A) : list A :=
  let len := Z.of_nat (List.length l) in
  let k := if (start <? 0)%Z then Z.max (len + start) 0 else Z.min start len in
  let final :=
    if (end_ <? 0)%Z then Z.max (len + end_) 0 else Z.min end_ len in
  firstn (Z.to_nat (final - k)) (skipn (Z.to_nat k) l).

(** The state of the [PurchaseHistory] component, which lives from one
    run of the effect to the next. *)
Record state : Type := {
  purchasedNFTs : list Z;
  loading : bool
}.

(** [useState([])] and [useState(true)]. *)
Definition initial : state := {| purchasedNFTs := []; loading := true |}.

Definition setPurchasedNFTs (l : list Z) (st : state) : state :=
  {| purchasedNFTs := l; loading := loading st |}.

Definition setLoading (b : bool) (st : state) : state :=
  {| purchasedNFTs := purchasedNFTs st; loading := b |}.

(** One run of [fetchPurchasedNFTs] from the state [st]: [nft] and
    [account] tell whether the two properties are set, and [wallet] is the
    outcome of [nft.walletOfOwner(account)]. The early return touches
    [loading] only. *)
Definition fetchPurchasedNFTs (nft account : bool)
  (wallet : result (list Z)) (st : state) : state :=
  if negb nft || negb account then setLoading false st
  else
    match wallet with
    | Ok tokenIds =>
        if (List.length tokenIds <? 2)%nat
        then setLoading false (setPurchasedNFTs [] st)
        else
          let previousNFTs := slice 0 (-1) tokenIds in
          setLoading false (setPurchasedNFTs previousNFTs st)
    | Throw _ => setLoading false (setPurchasedNFTs [] st)
    end.

End Wallet.

(** ** [verify] on values of any kind

    [verify] of [utils.js] does not check what it is given. Here the proof
    may be an array or a value that is not one, and the elements of the
    array, the root and the leaf may be strings, numbers, [null] or
    [undefined]. *)

Module Dynamic.

Inductive value : Type :=
| Str (s : string)
| Num (n : Z)
| Null
| Undefined.

Inductive argument : Type :=
| Arr (elems : list value)
| Val (v : value).

(** The [TypeError] the engine raises when a property of [null] or
    [undefined] is read or when what is called is not a function; its
    message depends on the engine and is not kept. *)
Definition type_error : exn := Error "TypeError".

(** [v.slice(2)]: only a string has the method. *)
Definition slice2 (v : value) : result string :=
  match v with
  | Str s => Ok (Hex.slice 2 s)
  | _ => Throw type_error
  end.

(** [Buffer.from(v.slice(2), 'hex')]. *)
Definition buffer_of (v : value) : result Buffer.t :=
  let* s := slice2 v in Ok (Hex.decode s).

(** [verify(proof, root, leaf)]: the guard on the state comes first, then
    [proof.map], then the leaf, then the root. *)
Definition verify (self : CustomMerkleTree.t) (proof : argument)
  (root leaf : value) : result bool :=
  match CustomMerkleTree.initialized self, CustomMerkleTree.tree self with
  | true, Some tr =>
      let* proofBuffers :=
        match proof with
        | Arr elems =>
            mapM (fun p => let* b := buffer_of p in
                           Ok (MerkleTree.NodeBuffer b)) elems
        | Val _ => Throw type_error
        end in
      let* leafBuffer := buffer_of leaf in
      let* rootBuffer := buffer_of root in
      MerkleTree.verify Keccak.keccak256 proofBuffers leafBuffer rootBuffer
  | _, _ => Ok false
  end.

Definition is_text (v : value) : bool :=
  match v with
  | Str _ => true
  | _ => false
  end.

(** The proof is an array of strings and the root and the leaf are
    strings. *)
Definition texts (proof : argument) (root leaf : value) : bool :=
  match proof with
  | Arr elems => forallb is_text elems
  | Val _ => false
  end && is_text root && is_text leaf.

End Dynamic.

(** * Properties *)

(** ** Test vectors of the hash and of the address checksum *)

Example keccak256_empty :
  Hex.encode (Keccak.keccak256 []) =
  "c5d2460186f7233c927e7db2dcc703c0e500b653ca82273b7bfad8045d85a470"%string.
Proof. vm_compute. reflexivity. Qed.

Example keccak256_abc :
  Hex.encode (Keccak.keccak256 [x61; x62; x63]) =
  "4e03657aea45a94fc7d47ba826c8d667c0d1e6e33a64a036ec44f58fa12d6c45"%string.
Proof. vm_compute. reflexivity. Qed.

Example checksum_address :
  Ethers.getAddress "d8da6bf26964af9d7eed9e03e53415d37aa96045" =
  Ok "0xd8dA6BF26964aF9D7eEd9e03E53415D37aA96045"%string.
Proof. vm_compute. reflexivity. Qed.

(** ** Buffers *)

Lemma to_N_inj (x y : byte) : Byte.to_N x = Byte.to_N y -> x = y.
Proof.
  intros H. pose proof (Byte.of_to_N x) as Hx.
  rewrite H, Byte.of_to_N in Hx. congruence.
Qed.

Lemma compare_refl (a : Buffer.t) : Buffer.compare a a = Eq.
Proof.
  induction a as [|x a IH]; cbn; [reflexivity|].
  now rewrite N.compare_refl.
Qed.

Lemma compare_eq (a b : Buffer.t) : Buffer.compare a b = Eq -> a = b.
Proof.
  revert b; induction a as [|x a IH]; intros [|y b]; cbn; try discriminate.
  - reflexivity.
  - destruct (N.compare_spec (Byte.to_N x) (Byte.to_N y)) as [E| |];
      try discriminate.
    intros H. apply to_N_inj in E. f_equal; auto.
Qed.

Lemma compare_antisym (a b : Buffer.t) :
  Buffer.compare b a = CompOpp (Buffer.compare a b).
Proof.
  revert b; induction a as [|x a IH]; intros [|y b]; cbn; try reflexivity.
  rewrite (N.compare_antisym (Byte.to_N x) (Byte.to_N y)).
  destruct (N.compare (Byte.to_N x) (Byte.to_N y)); cbn; auto.
Qed.

Lemma eqb_eq (a b : Buffer.t) : Buffer.eqb a b = true <-> a = b.
Proof.
  unfold Buffer.eqb; split.
  - destruct (Buffer.compare a b) eqn:E; try discriminate.
    intros _. now apply compare_eq.
  - intros ->. now rewrite compare_refl.
Qed.

Lemma eqb_refl (a : Buffer.t) : Buffer.eqb a a = true.
Proof. now apply eqb_eq. Qed.

(** ** Hexadecimal text *)

Lemma pair_digits (x : byte) :
  Hex.pair (Hex.digit (Byte.to_N x / 16)) (Hex.digit (Byte.to_N x mod 16))
  = Some x.
Proof. destruct x; reflexivity. Qed.

Lemma decode_encode (b : Buffer.t) : Hex.decode (Hex.encode b) = b.
Proof.
  induction b as [|x b IH]; cbn [Hex.encode Hex.decode]; [reflexivity|].
  now rewrite pair_digits, IH.
Qed.

Lemma parse_encode (b : Buffer.t) : Hex.parse (Hex.encode b) = Some b.
Proof.
  induction b as [|x b IH]; cbn [Hex.encode Hex.parse]; [reflexivity|].
  now rewrite pair_digits, IH.
Qed.

Lemma all_digits_encode (b : Buffer.t) : Hex.all_digits (Hex.encode b) = true.
Proof.
  unfold Hex.all_digits.
  induction b as [|x b IH]; cbn [Hex.encode list_ascii_of_string forallb];
    [reflexivity|].
  rewrite IH. pose proof (pair_digits x) as H. unfold Hex.pair in H.
  unfold Hex.is_digit.
  destruct (Hex.value (Hex.digit (Byte.to_N x / 16))); [|discriminate].
  destruct (Hex.value (Hex.digit (Byte.to_N x mod 16))); [|discriminate].
  reflexivity.
Qed.

Lemma slice_hexlify (b : Buffer.t) : Hex.slice 2 (Hex.hexlify b) = Hex.encode b.
Proof. reflexivity. Qed.

Lemma decode_hexlify (b : Buffer.t) : Hex.decode (Hex.slice 2 (Hex.hexlify b)) = b.
Proof. rewrite slice_hexlify. apply decode_encode. Qed.

Lemma arrayify_hexlify (b : Buffer.t) : Ethers.arrayify (Hex.hexlify b) = Ok b.
Proof.
  unfold Hex.hexlify, Ethers.arrayify. cbn [String.append].
  now rewrite all_digits_encode, parse_encode.
Qed.

Lemma keccak256_hexlify (b : Buffer.t) :
  Ethers.keccak256 (Hex.hexlify b) = Ok (Hex.hexlify (Keccak.keccak256 b)).
Proof. unfold Ethers.keccak256. now rewrite arrayify_hexlify. Qed.

(** ** The layered tree of merkletreejs *)

Section MerkleTreeFacts.

Variable hashFn : Buffer.t -> Buffer.t.

Abbreviation hash_pair := (MerkleTree.hash_pair hashFn).
Abbreviation next_layer := (MerkleTree.next_layer hashFn).
Abbreviation createHashes := (MerkleTree.createHashes hashFn).
Abbreviation verify_step := (MerkleTree.verify_step hashFn).

Lemma list_pair_ind (A : Type) (P : list A -> Prop) :
  P [] -> (forall x, P [x]) -> (forall x y l, P l -> P (x :: y :: l)) ->
  forall l, P l.
Proof.
  intros H0 H1 H2.
  fix rec 1. intros [|x [|y l]];
    [exact H0 | exact (H1 x) | exact (H2 x y l (rec l))].
Qed.

Lemma hash_pair_min_max (l r : Buffer.t) :
  hash_pair l r = hashFn (Buffer.min l r ++ Buffer.max l r).
Proof.
  unfold MerkleTree.hash_pair, MerkleTree.sort_pair, Buffer.min, Buffer.max,
    Buffer.concat.
  destruct (Buffer.compare l r); cbn; now rewrite app_nil_r.
Qed.

Lemma verify_step_min_max (h d : Buffer.t) :
  verify_step h d = hashFn (Buffer.min h d ++ Buffer.max h d).
Proof.
  unfold MerkleTree.verify_step, Buffer.min, Buffer.max, Buffer.concat.
  destruct (Buffer.compare h d) eqn:E; cbn; rewrite ?app_nil_r; auto.
  apply compare_eq in E. now subst.
Qed.

Lemma verify_step_hash_pair (h d : Buffer.t) :
  verify_step h d = hash_pair h d.
Proof. now rewrite verify_step_min_max, hash_pair_min_max. Qed.

Lemma hash_pair_comm (l r : Buffer.t) : hash_pair l r = hash_pair r l.
Proof.
  rewrite !hash_pair_min_max. unfold Buffer.min, Buffer.max.
  rewrite (compare_antisym l r).
  destruct (Buffer.compare l r) eqn:E; cbn; auto.
  apply compare_eq in E. now subst.
Qed.

Lemma createHashes_unfold (nodes : list Buffer.t) :
  createHashes nodes =
  nodes :: (if 1 <? List.length nodes
            then createHashes (next_layer nodes) else []).
Proof.
  rewrite MerkleTree.createHashes_equation_1.
  destruct (le_lt_dec (List.length nodes) 1) as [H|H];
    cbn [MerkleTree.createHashes_unfold_clause_1].
  - apply Nat.ltb_ge in H. now rewrite H.
  - apply Nat.ltb_lt in H. now rewrite H.
Qed.

Lemma next_layer_nth (nodes : list Buffer.t) :
  forall i x,
    nth_error nodes i = Some x ->
    nth_error (next_layer nodes) (i / 2) =
    Some (match nth_error nodes (sibling i) with
          | Some s => hash_pair x s
          | None => x
          end).
Proof.
  induction nodes as [|a|a b rest IH] using list_pair_ind; intros i x Hi.
  - destruct i; discriminate.
  - destruct i as [|[|i]]; try discriminate. cbn in Hi. now inversion Hi.
  - destruct i as [|[|i]].
    + cbn in Hi. inversion Hi; subst. reflexivity.
    + cbn in Hi. inversion Hi; subst. cbn. now rewrite hash_pair_comm.
    + change (nth_error (a :: b :: rest) (S (S i)))
        with (nth_error rest i) in Hi.
      specialize (IH i x Hi).
      replace (S (S i) / 2) with (S (i / 2))
        by (change (S (S i)) with (1 * 2 + i) at 1;
            rewrite Nat.div_add_l by lia; reflexivity).
      cbn [MerkleTree.next_layer nth_error]. rewrite IH.
      assert (Hs : sibling (S (S i)) = S (S (sibling i))).
      { unfold sibling. rewrite Nat.odd_succ_succ.
        destruct (Nat.odd i) eqn:Ho; [|lia].
        destruct i; [discriminate|lia]. }
      rewrite Hs. reflexivity.
Qed.

Lemma last_cons (A : Type) (x d : A) (l : list A) :
  last (x :: l) d = last l x.
Proof.
  revert x d; induction l as [|y l IH]; intros x d; [reflexivity|].
  change (last (x :: y :: l) d) with (last (y :: l) d).
  now rewrite !IH.
Qed.

Lemma getRoot_step (nodes : list Buffer.t) :
  1 < List.length nodes ->
  MerkleTree.getRoot (MerkleTree.make hashFn nodes) =
  MerkleTree.getRoot (MerkleTree.make hashFn (next_layer nodes)).
Proof.
  intros H. unfold MerkleTree.getRoot, MerkleTree.make. cbn.
  rewrite (createHashes_unfold nodes).
  apply Nat.ltb_lt in H. rewrite H.
  rewrite (createHashes_unfold (next_layer nodes)).
  now rewrite last_cons.
Qed.

Lemma next_layer_shorter (nodes : list Buffer.t) :
  1 < List.length nodes ->
  List.length (next_layer nodes) < List.length nodes.
Proof.
  induction nodes as [|a|a b rest IH] using list_pair_ind; cbn; try lia.
  intros _. destruct rest as [|c [|d rest]]; cbn in *; lia.
Qed.

(** Folding the siblings met on the walk from a position of layer 0 into
    the node at that position gives the root. *)
Lemma walk_valid (nodes : list Buffer.t) :
  forall i x,
    nth_error nodes i = Some x ->
    fold_left verify_step
      (map MerkleTree.data (MerkleTree.proof_walk (createHashes nodes) i)) x
    = MerkleTree.getRoot (MerkleTree.make hashFn nodes).
Proof.
  induction nodes as [nodes IH] using (well_founded_induction
    (Wf_nat.well_founded_ltof _ (@List.length Buffer.t))).
  intros i x Hi.
  destruct (Nat.ltb_spec 1 (List.length nodes)) as [Hlen|Hlen].
  - rewrite getRoot_step by assumption.
    rewrite createHashes_unfold.
    apply Nat.ltb_lt in Hlen as Hb. rewrite Hb.
    cbn [MerkleTree.proof_walk].
    pose proof (next_layer_nth nodes i Hi) as Hn.
    fold (sibling i).
    destruct (nth_error nodes (sibling i)) as [s|].
    + cbn [map fold_left MerkleTree.data].
      rewrite verify_step_hash_pair.
      apply IH; [|assumption].
      now apply next_layer_shorter.
    + apply IH; [|assumption].
      now apply next_layer_shorter.
  - destruct nodes as [|a [|b rest]]; cbn in Hlen; try lia.
    + destruct i; discriminate.
    + destruct i as [|[|i]]; try discriminate.
      cbn in Hi. inversion Hi; subst. reflexivity.
Qed.

Lemma verify_loop_buffers (proof : list Buffer.t) (hash : Buffer.t) :
  MerkleTree.verify_loop hashFn (map MerkleTree.NodeBuffer proof) hash
  = Ok (fold_left verify_step proof hash).
Proof.
  revert hash; induction proof as [|d proof IH]; intros hash; cbn; auto.
Qed.

(** *** The search for a leaf *)

Lemma find_leaf_app (leaf : Buffer.t) (pre post : list Buffer.t) :
  forall i index,
    MerkleTree.find_leaf leaf (pre ++ post) i index =
    MerkleTree.find_leaf leaf post (i + Z.of_nat (List.length pre))%Z
      (MerkleTree.find_leaf leaf pre i index).
Proof.
  induction pre as [|x pre IH]; intros i index; cbn [app MerkleTree.find_leaf].
  - cbn. now rewrite Z.add_0_r.
  - rewrite IH. f_equal. cbn [List.length]. lia.
Qed.

Lemma find_leaf_absent (leaf : Buffer.t) (ls : list Buffer.t) :
  ~ In leaf ls ->
  forall i index, MerkleTree.find_leaf leaf ls i index = index.
Proof.
  induction ls as [|x ls IH]; intros Hn i index; cbn; [reflexivity|].
  destruct (Buffer.eqb leaf x) eqn:E.
  - apply eqb_eq in E. subst. exfalso. apply Hn. now left.
  - apply IH. intros H. apply Hn. now right.
Qed.

Lemma find_leaf_last (leaf : Buffer.t) (pre post : list Buffer.t) :
  ~ In leaf post ->
  forall i index,
    MerkleTree.find_leaf leaf (pre ++ leaf :: post) i index =
    (i + Z.of_nat (List.length pre))%Z.
Proof.
  intros Hn i index. rewrite find_leaf_app. cbn [MerkleTree.find_leaf].
  rewrite eqb_refl. now apply find_leaf_absent.
Qed.

Lemma last_occurrence (leaf : Buffer.t) (ls : list Buffer.t) :
  In leaf ls ->
  exists pre post, ls = pre ++ leaf :: post /\ ~ In leaf post.
Proof.
  induction ls as [|x ls IH]; intros Hin; [contradiction|].
  destruct (in_dec (list_eq_dec byte_eq_dec) leaf ls) as [Hl|Hl].
  - destruct (IH Hl) as (pre & post & -> & Hn).
    exists (x :: pre), post. split; auto.
  - destruct Hin as [->|Hin]; [|contradiction].
    exists [], ls. split; auto.
Qed.

(** [getProof(leaf)] walks from the last position of layer 0 that
    holds [leaf]. *)
Lemma getProof_last (leaves : list Buffer.t) (leaf : Buffer.t)
  (pre post : list Buffer.t) :
  leaves = pre ++ leaf :: post -> ~ In leaf post ->
  MerkleTree.getProof (MerkleTree.make hashFn leaves) leaf =
  MerkleTree.proof_walk (createHashes leaves) (List.length pre).
Proof.
  intros -> Hn. unfold MerkleTree.getProof, MerkleTree.make. cbn.
  rewrite find_leaf_last by assumption.
  destruct (Z.leb_spec (0 + Z.of_nat (List.length pre)) (-1)); [lia|].
  now rewrite Z.add_0_l, Nat2Z.id.
Qed.

Lemma getProof_valid (leaves : list Buffer.t) (leaf : Buffer.t) :
  In leaf leaves ->
  fold_left verify_step
    (map MerkleTree.data
       (MerkleTree.getProof (MerkleTree.make hashFn leaves) leaf)) leaf
  = MerkleTree.getRoot (MerkleTree.make hashFn leaves).
Proof.
  intros Hin. destruct (last_occurrence _ _ Hin) as (pre & post & E & Hn).
  erewrite getProof_last; [|exact E|exact Hn]. apply walk_valid.
  subst. rewrite nth_error_app2 by lia. now rewrite Nat.sub_diag.
Qed.

(** Each layer of the tree after the first is [next_layer] of the one
    below it. *)
Lemma layers_chain (nodes : list Buffer.t) :
  forall i layer next,
    nth_error (createHashes nodes) i = Some layer ->
    nth_error (createHashes nodes) (S i) = Some next ->
    next = next_layer layer.
Proof.
  induction nodes as [nodes IH] using (well_founded_induction
    (Wf_nat.well_founded_ltof _ (@List.length Buffer.t))).
  intros i layer next. rewrite createHashes_unfold.
  destruct (Nat.ltb_spec 1 (List.length nodes)) as [Hlen|Hlen].
  - destruct i as [|i]; cbn [nth_error].
    + rewrite createHashes_unfold. cbn [nth_error]. congruence.
    + apply IH. now apply next_layer_shorter.
  - destruct i as [|[|i]]; cbn; discriminate.
Qed.

Lemma odd_layer_split (layer : list Buffer.t) :
  Nat.odd (List.length layer) = true ->
  exists init x,
    layer = init ++ [x] /\ Nat.even (List.length init) = true.
Proof.
  intros Hodd. destruct (exists_last (l := layer)) as (init & x & ->).
  - intros ->. discriminate.
  - exists init, x. split; [reflexivity|].
    rewrite length_app, Nat.add_1_r, Nat.odd_succ in Hodd. exact Hodd.
Qed.

End MerkleTreeFacts.

(** ** Building the wrapper *)

Lemma mapM_Forall2 (A B : Type) (f : A -> result B) (l : list A) :
  forall bs, mapM f l = Ok bs <-> Forall2 (fun a b => f a = Ok b) l bs.
Proof.
  induction l as [|a l IH]; intros bs; cbn.
  - split.
    + intros H. inversion H. constructor.
    + intros H. inversion H. reflexivity.
  - split.
    + destruct (f a) as [b|e] eqn:Ea; cbn; [|discriminate].
      destruct (mapM f l) as [bs'|e] eqn:El; cbn; [|discriminate].
      intros H. inversion H; subst. constructor; auto. now apply IH.
    + intros H. inversion H as [|a' b l' bs' Hab Hl]; subst.
      rewrite Hab. cbn. apply IH in Hl. rewrite Hl. reflexivity.
Qed.

Lemma mapM_map (A B C : Type) (f : B -> result C) (g : A -> B) (l : list A) :
  mapM f (map g l) = mapM (fun a => f (g a)) l.
Proof.
  induction l as [|a l IH]; cbn; [reflexivity|]. now rewrite IH.
Qed.

Lemma Forall2_nth (A B : Type) (R : A -> B -> Prop) (l : list A)
  (l' : list B) :
  Forall2 R l l' ->
  forall i a, nth_error l i = Some a ->
  exists b, nth_error l' i = Some b /\ R a b.
Proof.
  induction 1 as [|x y l l' Hxy Hl IH]; intros i a Hi.
  - destruct i; discriminate.
  - destruct i as [|i]; cbn in *.
    + inversion Hi; subst. eauto.
    + eauto.
Qed.

Lemma build_spec (L : list string) (tree : CustomMerkleTree.t) :
  buildMerkleTree L = Ok tree <->
  exists lvs,
    Forall2 (fun a l => addressLeaf a = Ok l) L lvs /\ tree = built L lvs.
Proof.
  unfold buildMerkleTree, CustomMerkleTree.initialize.
  cbn [CustomMerkleTree.new CustomMerkleTree.initialized
       CustomMerkleTree.values CustomMerkleTree.leafEncoding].
  unfold wrapAddresses at 2. rewrite mapM_map.
  change (fun a : string =>
            CustomMerkleTree.hashLeaf
              (CustomMerkleTree.new (wrapAddresses L) ["address"%string]) [a])
    with addressLeaf.
  split.
  - destruct (mapM addressLeaf L) as [lvs|e] eqn:E; cbn; [|discriminate].
    intros H. inversion H; subst. exists lvs. split; [|reflexivity].
    now apply mapM_Forall2.
  - intros (lvs & HF & ->). apply mapM_Forall2 in HF. rewrite HF.
    reflexivity.
Qed.

Lemma addressLeaf_spec (a : string) :
  addressLeaf a =
  let* checked := Ethers.getAddress a in
  Ok (Keccak.keccak256 (Keccak.keccak256
        (repeat x00 12 ++ Ethers.address_bytes checked))).
Proof.
  unfold addressLeaf, CustomMerkleTree.hashLeaf, Ethers.abi_encode_address.
  cbn [CustomMerkleTree.new CustomMerkleTree.leafEncoding
       CustomMerkleTree.includes existsb String.eqb Ascii.eqb Bool.eqb orb].
  destruct (Ethers.getAddress a) as [c|e]; cbn [bind]; [|reflexivity].
  rewrite keccak256_hexlify. cbn [bind].
  rewrite keccak256_hexlify. cbn [bind]. now rewrite decode_hexlify.
Qed.

Lemma valid_leaves (L : list string) :
  forallb valid_address L = true ->
  exists lvs, Forall2 (fun a l => addressLeaf a = Ok l) L lvs.
Proof.
  induction L as [|a L IH]; cbn.
  - exists []. constructor.
  - intros H. apply andb_prop in H as [Ha HL].
    destruct (IH HL) as (lvs & HF).
    unfold valid_address in Ha.
    destruct (Ethers.getAddress a) as [c|e] eqn:E; [|discriminate].
    pose proof (addressLeaf_spec a) as Hl. rewrite E in Hl. cbn [bind] in Hl.
    eexists (_ :: lvs). constructor; [exact Hl|exact HF].
Qed.

Lemma findIndex_nonneg (A : Type) (p : A -> bool) (l : list A) :
  (-1 <= findIndex p l < Z.of_nat (List.length l))%Z.
Proof.
  induction l as [|a l IH]; cbn [findIndex List.length]; [lia|].
  destruct (p a); [lia|].
  destruct (Z.ltb_spec (findIndex p l) 0); lia.
Qed.

Lemma findIndex_present (address : string) (L : list string) :
  In address L ->
  exists i,
    findIndex (first_is address) (wrapAddresses L) = Z.of_nat i /\
    nth_error L i = Some address.
Proof.
  induction L as [|a L IH]; intros Hin; [contradiction|].
  cbn [wrapAddresses map findIndex first_is].
  destruct (String.eqb a address) eqn:E.
  - apply String.eqb_eq in E. subst. exists 0. split; reflexivity.
  - destruct Hin as [->|Hin]; [now rewrite String.eqb_refl in E|].
    destruct (IH Hin) as (i & Hi & Hn).
    fold (wrapAddresses L). rewrite Hi.
    destruct (Z.ltb_spec (Z.of_nat i) 0); [lia|].
    exists (S i). split; [lia|exact Hn].
Qed.

Lemma findIndex_absent (address : string) (L : list string) :
  ~ In address L ->
  findIndex (first_is address) (wrapAddresses L) = (-1)%Z.
Proof.
  induction L as [|a L IH]; intros Hn; [reflexivity|].
  cbn [wrapAddresses map findIndex first_is].
  destruct (String.eqb a address) eqn:E.
  - apply String.eqb_eq in E. subst. exfalso. apply Hn. now left.
  - fold (wrapAddresses L). rewrite IH by (intros H; apply Hn; now right).
    reflexivity.
Qed.

Lemma wrapAddresses_length (L : list string) :
  List.length (wrapAddresses L) = List.length L.
Proof. apply length_map. Qed.

(** [getProof] of a built wrapper at a position of the allowlist. *)
Lemma getProof_built (L : list string) (lvs : list Buffer.t) (i : nat)
  (leaf : Buffer.t) :
  List.length lvs = List.length L ->
  nth_error lvs i = Some leaf ->
  CustomMerkleTree.getProof (built L lvs) (Z.of_nat i) =
  Ok (render (MerkleTree.getProof (MerkleTree.make Keccak.keccak256 lvs) leaf)).
Proof.
  intros Hlen Hi. unfold CustomMerkleTree.getProof, built.
  cbn [CustomMerkleTree.initialized CustomMerkleTree.values
       CustomMerkleTree.leaves CustomMerkleTree.tree negb].
  rewrite wrapAddresses_length.
  assert (i < List.length lvs) by (apply nth_error_Some; congruence).
  destruct (Z.ltb_spec (Z.of_nat i) 0); [lia|].
  destruct (Z.geb_spec (Z.of_nat i) (Z.of_nat (List.length L))); [lia|].
  cbn [orb]. rewrite Nat2Z.id, Hi. reflexivity.
Qed.

Lemma getProof_out_of_bounds (L : list string) (lvs : list Buffer.t) (i : Z) :
  (i < 0 \/ Z.of_nat (List.length L) <= i)%Z ->
  CustomMerkleTree.getProof (built L lvs) i =
  Throw (Error "Index out of bounds").
Proof.
  intros H. unfold CustomMerkleTree.getProof, built.
  cbn [CustomMerkleTree.initialized CustomMerkleTree.values negb].
  rewrite wrapAddresses_length.
  destruct (Z.ltb_spec i 0); [reflexivity|].
  destruct (Z.geb_spec i (Z.of_nat (List.length L))); [reflexivity|lia].
Qed.

(** [verify] of a built wrapper on rendered digests. *)
Lemma verify_built (L : list string) (lvs : list Buffer.t)
  (proof : list Buffer.t) (root leaf : Buffer.t) :
  CustomMerkleTree.verify (built L lvs) (map Hex.hexlify proof)
    (Hex.hexlify root) (Hex.hexlify leaf) =
  Ok (Buffer.eqb
        (fold_left (MerkleTree.verify_step Keccak.keccak256) proof leaf) root).
Proof.
  unfold CustomMerkleTree.verify, built, MerkleTree.verify.
  cbn [CustomMerkleTree.initialized CustomMerkleTree.tree].
  rewrite !decode_hexlify, map_map.
  rewrite (map_ext
             (fun p => MerkleTree.NodeBuffer
                         (Hex.decode (Hex.slice 2 (Hex.hexlify p))))
             MerkleTree.NodeBuffer)
    by (intros p; now rewrite decode_hexlify).
  now rewrite verify_loop_buffers.
Qed.

Lemma built_root (L : list string) (lvs : list Buffer.t) :
  CustomMerkleTree.root (built L lvs) =
  Some (Hex.hexlify
          (MerkleTree.getRoot (MerkleTree.make Keccak.keccak256 lvs))).
Proof. reflexivity. Qed.

Lemma hashLeaf_built (L : list string) (lvs : list Buffer.t) (a : string) :
  CustomMerkleTree.hashLeaf (built L lvs) [a] = addressLeaf a.
Proof. reflexivity. Qed.

Lemma render_map (proof : list MerkleTree.proof_item) :
  render proof = map Hex.hexlify (map MerkleTree.data proof).
Proof. unfold render. now rewrite map_map. Qed.

(** The proof the wrapper returns for a stored leaf verifies. *)
Lemma built_proof_verifies (L : list string) (lvs : list Buffer.t)
  (leaf : Buffer.t) :
  In leaf lvs ->
  CustomMerkleTree.verify (built L lvs)
    (render (MerkleTree.getProof (MerkleTree.make Keccak.keccak256 lvs) leaf))
    (Hex.hexlify (MerkleTree.getRoot (MerkleTree.make Keccak.keccak256 lvs)))
    (Hex.hexlify leaf)
  = Ok true.
Proof.
  intros Hin. rewrite render_map, verify_built.
  rewrite getProof_valid by assumption. now rewrite eqb_refl.
Qed.

(** The proof [getMerkleProof] returns for an address of the allowlist. *)
Lemma present_address_proof (L : list string) (lvs : list Buffer.t)
  (a : string) :
  Forall2 (fun a l => addressLeaf a = Ok l) L lvs ->
  In a L ->
  exists leaf,
    addressLeaf a = Ok leaf /\ In leaf lvs /\
    getMerkleProof (built L lvs) a L =
      Ok (render (MerkleTree.getProof
                    (MerkleTree.make Keccak.keccak256 lvs) leaf)).
Proof.
  intros HF Hin.
  destruct (findIndex_present a L Hin) as (i & Hi & Hn).
  destruct (Forall2_nth HF i Hn) as (leaf & Hleaf & Ha).
  exists leaf. split; [exact Ha|]. split; [eapply nth_error_In; eauto|].
  unfold getMerkleProof. rewrite Hi. apply getProof_built; auto.
  symmetry. eapply Forall2_length; eauto.
Qed.

(** ** Round trip *)

(** C1. For every allowlist [L] of addresses the encoder accepts,
    [buildMerkleTree L] returns a tree with a root, and for every address
    [a] of [L] the proof [getMerkleProof] returns for it (the proof of the
    layer-0 position [findIndex] gives) verifies against that root with the
    leaf digest [hashLeaf([a])]. The non-empty lists are those with such an
    [a]. *)
Theorem round_trip (L : list string) :
  forallb valid_address L = true ->
  exists tree root,
    buildMerkleTree L = Ok tree /\
    CustomMerkleTree.root tree = Some root /\
    forall a, In a L ->
      exists proof leaf,
        getMerkleProof tree a L = Ok proof /\
        CustomMerkleTree.hashLeaf tree [a] = Ok leaf /\
        CustomMerkleTree.verify tree proof root (Hex.hexlify leaf) = Ok true.
Proof.
  intros Hvalid. destruct (valid_leaves L Hvalid) as (lvs & HF).
  exists (built L lvs). eexists. split; [|split].
  - apply build_spec. eauto.
  - apply built_root.
  - intros a Hin.
    destruct (present_address_proof a HF Hin) as (leaf & Ha & Hl & Hp).
    exists (render (MerkleTree.getProof
                      (MerkleTree.make Keccak.keccak256 lvs) leaf)), leaf.
    split; [exact Hp|]. split.
    + rewrite hashLeaf_built. exact Ha.
    + now apply built_proof_verifies.
Qed.

Lemma round_trip_witness :
  forallb valid_address [addrA; addrB; addrC] = true /\
  exists tree root,
    buildMerkleTree [addrA; addrB; addrC] = Ok tree /\
    CustomMerkleTree.root tree = Some root /\
    forall a, In a [addrA; addrB; addrC] ->
      exists proof leaf,
        getMerkleProof tree a [addrA; addrB; addrC] = Ok proof /\
        CustomMerkleTree.hashLeaf tree [a] = Ok leaf /\
        CustomMerkleTree.verify tree proof root (Hex.hexlify leaf) = Ok true.
Proof.
  split.
  - vm_compute. reflexivity.
  - apply (round_trip [addrA; addrB; addrC]). vm_compute. reflexivity.
Defined.

(** ** Shape of small trees *)

Lemma layers_one (hashFn : Buffer.t -> Buffer.t) (l1 : Buffer.t) :
  MerkleTree.createHashes hashFn [l1] = [[l1]].
Proof. rewrite createHashes_unfold. reflexivity. Qed.

Lemma layers_two (hashFn : Buffer.t -> Buffer.t) (l1 l2 : Buffer.t) :
  MerkleTree.createHashes hashFn [l1; l2] =
  [[l1; l2]; [MerkleTree.hash_pair hashFn l1 l2]].
Proof.
  rewrite createHashes_unfold.
  cbn [List.length Nat.ltb Nat.leb MerkleTree.next_layer].
  now rewrite layers_one.
Qed.

Lemma layers_three (hashFn : Buffer.t -> Buffer.t) (l1 l2 l3 : Buffer.t) :
  MerkleTree.createHashes hashFn [l1; l2; l3] =
  [[l1; l2; l3];
   [MerkleTree.hash_pair hashFn l1 l2; l3];
   [MerkleTree.hash_pair hashFn (MerkleTree.hash_pair hashFn l1 l2) l3]].
Proof.
  rewrite createHashes_unfold.
  cbn [List.length Nat.ltb Nat.leb MerkleTree.next_layer].
  now rewrite layers_two.
Qed.

Lemma next_layer_even_app (hashFn : Buffer.t -> Buffer.t)
  (nodes rest : list Buffer.t) :
  Nat.even (List.length nodes) = true ->
  MerkleTree.next_layer hashFn (nodes ++ rest) =
  MerkleTree.next_layer hashFn nodes ++ MerkleTree.next_layer hashFn rest.
Proof.
  induction nodes as [|a|a b nodes IH] using list_pair_ind; intros Hev.
  - reflexivity.
  - discriminate.
  - cbn [app MerkleTree.next_layer]. rewrite IH; [reflexivity|exact Hev].
Qed.

(** C3. In every tree, a layer of odd length that has a layer above it
    is an even run of nodes followed by one node [x], and the layer above
    is the combination of the run, one node per pair, followed by [x]
    itself: the unpaired node is carried up unchanged and is last there.
    For three addresses the layers are the three leaves, then the
    combination of the first two followed by the third leaf, then the root,
    which is the sorted-pair hash of that combination with the third
    leaf. *)
Theorem odd_layer_promotion :
  (forall (hashFn : Buffer.t -> Buffer.t) (leaves : list Buffer.t)
          (i : nat) (layer next : list Buffer.t),
      nth_error (MerkleTree.createHashes hashFn leaves) i = Some layer ->
      nth_error (MerkleTree.createHashes hashFn leaves) (S i) = Some next ->
      Nat.odd (List.length layer) = true ->
      exists init x,
        layer = init ++ [x] /\
        next = MerkleTree.next_layer hashFn init ++ [x] /\
        List.length (MerkleTree.next_layer hashFn init) =
          List.length init / 2 /\
        last next [] = x) /\
  (forall (A B C : string) (lA lB lC : Buffer.t),
      addressLeaf A = Ok lA -> addressLeaf B = Ok lB ->
      addressLeaf C = Ok lC ->
      let hAB := Keccak.keccak256 (Buffer.min lA lB ++ Buffer.max lA lB) in
      let top := Keccak.keccak256 (Buffer.min hAB lC ++ Buffer.max hAB lC) in
      exists tree mt,
        buildMerkleTree [A; B; C] = Ok tree /\
        CustomMerkleTree.tree tree = Some mt /\
        MerkleTree.layers mt = [[lA; lB; lC]; [hAB; lC]; [top]] /\
        CustomMerkleTree.root tree = Some (Hex.hexlify top)).
Proof.
  split.
  - intros hashFn leaves i layer next Hl Hn Hodd.
    apply (layers_chain _ _ _ Hl) in Hn. subst next.
    destruct (odd_layer_split layer Hodd) as (init & x & -> & Hev).
    exists init, x. rewrite next_layer_even_app by assumption.
    cbn [MerkleTree.next_layer]. split; [reflexivity|].
    split; [reflexivity|]. split; [|apply last_last].
    clear Hl Hodd. induction init as [|a|a b init IH] using list_pair_ind.
    + reflexivity.
    + discriminate.
    + cbn [MerkleTree.next_layer List.length]. rewrite IH by exact Hev.
      change (S (S (List.length init))) with (1 * 2 + List.length init).
      now rewrite Nat.div_add_l by lia.
  - intros A B C lA lB lC HA HB HC hAB top.
    exists (built [A; B; C] [lA; lB; lC]),
      (MerkleTree.make Keccak.keccak256 [lA; lB; lC]).
    assert (Hl : MerkleTree.createHashes Keccak.keccak256 [lA; lB; lC] =
                 [[lA; lB; lC]; [hAB; lC]; [top]]).
    { rewrite layers_three. subst hAB top.
      now rewrite <- !hash_pair_min_max. }
    split; [|split; [|split]].
    + apply build_spec. exists [lA; lB; lC]. split; [|reflexivity].
      repeat constructor; assumption.
    + reflexivity.
    + exact Hl.
    + rewrite built_root. unfold MerkleTree.getRoot, MerkleTree.make.
      cbn [MerkleTree.layers]. rewrite Hl. reflexivity.
Qed.

Lemma odd_layer_promotion_witness :
  (exists init x,
      [leafA; leafB; leafA] = init ++ [x] /\
      [MerkleTree.hash_pair Keccak.keccak256 leafA leafB; leafA] =
        MerkleTree.next_layer Keccak.keccak256 init ++ [x] /\
      List.length (MerkleTree.next_layer Keccak.keccak256 init) =
        List.length init / 2 /\
      last [MerkleTree.hash_pair Keccak.keccak256 leafA leafB; leafA] [] = x)
  /\
  exists lA lB lC tree mt,
    addressLeaf addrA = Ok lA /\ addressLeaf addrB = Ok lB /\
    addressLeaf addrC = Ok lC /\
    buildMerkleTree [addrA; addrB; addrC] = Ok tree /\
    CustomMerkleTree.tree tree = Some mt /\
    MerkleTree.layers mt =
      [[lA; lB; lC];
       [Keccak.keccak256 (Buffer.min lA lB ++ Buffer.max lA lB); lC];
       [Keccak.keccak256
          (Buffer.min
             (Keccak.keccak256 (Buffer.min lA lB ++ Buffer.max lA lB)) lC ++
           Buffer.max
             (Keccak.keccak256 (Buffer.min lA lB ++ Buffer.max lA lB)) lC)]].
Proof.
  split.
  - apply (proj1 odd_layer_promotion Keccak.keccak256
             [leafA; leafB; leafA] 0).
    + rewrite layers_three. reflexivity.
    + rewrite layers_three. reflexivity.
    + reflexivity.
  - assert (exists lA, addressLeaf addrA = Ok lA) as [lA EA]
      by (vm_compute; eexists; reflexivity).
    assert (exists lB, addressLeaf addrB = Ok lB) as [lB EB]
      by (vm_compute; eexists; reflexivity).
    assert (exists lC, addressLeaf addrC = Ok lC) as [lC EC]
      by (vm_compute; eexists; reflexivity).
    destruct (proj2 odd_layer_promotion addrA addrB addrC lA lB lC EA EB EC)
      as (tree & mt & H1 & H2 & H3 & _).
    exists lA, lB, lC, tree, mt.
    exact (conj EA (conj EB (conj EC (conj H1 (conj H2 H3))))).
Defined.

Lemma getProof_two (hashFn : Buffer.t -> Buffer.t) (l1 l2 : Buffer.t) :
  map MerkleTree.data
    (MerkleTree.getProof (MerkleTree.make hashFn [l1; l2]) l1) = [l2].
Proof.
  unfold MerkleTree.getProof, MerkleTree.make.
  cbn [MerkleTree.leaves MerkleTree.layers MerkleTree.find_leaf].
  rewrite layers_two, eqb_refl.
  destruct (Buffer.eqb l1 l2) eqn:E.
  - apply eqb_eq in E. subst. reflexivity.
  - reflexivity.
Qed.

Lemma getProof_one (hashFn : Buffer.t -> Buffer.t) (l1 : Buffer.t) :
  MerkleTree.getProof (MerkleTree.make hashFn [l1]) l1 = [].
Proof.
  unfold MerkleTree.getProof, MerkleTree.make.
  cbn [MerkleTree.leaves MerkleTree.layers MerkleTree.find_leaf].
  rewrite layers_one, eqb_refl. reflexivity.
Qed.

Lemma findIndex_head (a : string) (L : list string) :
  findIndex (first_is a) (wrapAddresses (a :: L)) = 0%Z.
Proof.
  cbn [wrapAddresses map findIndex first_is]. now rewrite String.eqb_refl.
Qed.

(** ** Sorted pairs *)

(** C4. Two sibling digests are combined, when the tree is built and
    when a proof is verified, into the hash of the smaller followed by the
    larger in the byte-wise order of [Buffer.compare]. For an allowlist of
    two addresses with leaves [l1] and [l2] the root is that hash of the two
    leaves, the proof for the first address is [[l2]], and [[l2]] verifies
    [l1] against the root. *)
Theorem sorted_pair_combination :
  (forall (hashFn : Buffer.t -> Buffer.t) (a b : Buffer.t),
      MerkleTree.hash_pair hashFn a b =
        hashFn (Buffer.min a b ++ Buffer.max a b) /\
      MerkleTree.verify_step hashFn a b =
        hashFn (Buffer.min a b ++ Buffer.max a b)) /\
  (forall (a1 a2 : string) (l1 l2 : Buffer.t),
      addressLeaf a1 = Ok l1 -> addressLeaf a2 = Ok l2 ->
      let root := Keccak.keccak256 (Buffer.min l1 l2 ++ Buffer.max l1 l2) in
      exists tree,
        buildMerkleTree [a1; a2] = Ok tree /\
        CustomMerkleTree.root tree = Some (Hex.hexlify root) /\
        getMerkleProof tree a1 [a1; a2] = Ok [Hex.hexlify l2] /\
        CustomMerkleTree.verify tree [Hex.hexlify l2] (Hex.hexlify root)
          (Hex.hexlify l1) = Ok true).
Proof.
  split.
  - intros hashFn a b. split.
    + apply hash_pair_min_max.
    + apply verify_step_min_max.
  - intros a1 a2 l1 l2 H1 H2 root.
    exists (built [a1; a2] [l1; l2]). split; [|split; [|split]].
    + apply build_spec. exists [l1; l2]. split; [|reflexivity].
      repeat constructor; assumption.
    + rewrite built_root. unfold MerkleTree.getRoot, MerkleTree.make.
      cbn [MerkleTree.layers]. rewrite layers_two.
      cbn [last hd]. now rewrite hash_pair_min_max.
    + unfold getMerkleProof. rewrite findIndex_head.
      change 0%Z with (Z.of_nat 0).
      rewrite (getProof_built [a1; a2] [l1; l2] 0 (leaf := l1))
        by reflexivity.
      now rewrite render_map, getProof_two.
    + change [Hex.hexlify l2] with (map Hex.hexlify [l2]).
      rewrite verify_built. cbn [fold_left].
      rewrite verify_step_min_max. fold root. now rewrite eqb_refl.
Qed.

Lemma sorted_pair_combination_witness :
  exists l1 l2 tree,
    addressLeaf addrA = Ok l1 /\ addressLeaf addrB = Ok l2 /\
    buildMerkleTree [addrA; addrB] = Ok tree /\
    CustomMerkleTree.root tree =
      Some (Hex.hexlify
              (Keccak.keccak256 (Buffer.min l1 l2 ++ Buffer.max l1 l2))) /\
    getMerkleProof tree addrA [addrA; addrB] = Ok [Hex.hexlify l2] /\
    CustomMerkleTree.verify tree [Hex.hexlify l2]
      (Hex.hexlify (Keccak.keccak256 (Buffer.min l1 l2 ++ Buffer.max l1 l2)))
      (Hex.hexlify l1) = Ok true.
Proof.
  assert (exists l1, addressLeaf addrA = Ok l1) as [l1 E1]
    by (vm_compute; eexists; reflexivity).
  assert (exists l2, addressLeaf addrB = Ok l2) as [l2 E2]
    by (vm_compute; eexists; reflexivity).
  destruct (proj2 sorted_pair_combination addrA addrB l1 l2 E1 E2)
    as (tree & H).
  exists l1, l2, tree. exact (conj E1 (conj E2 H)).
Defined.

(** ** What [verify] answers; one address *)

Lemma verify_fold (self : CustomMerkleTree.t) (proof : list string)
  (root leaf : string) :
  CustomMerkleTree.verify self proof root leaf =
  Ok (match CustomMerkleTree.initialized self, CustomMerkleTree.tree self with
      | true, Some _ =>
          Buffer.eqb
            (fold_left (MerkleTree.verify_step Keccak.keccak256)
               (map (fun p => Hex.decode (Hex.slice 2 p)) proof)
               (Hex.decode (Hex.slice 2 leaf)))
            (Hex.decode (Hex.slice 2 root))
      | _, _ => false
      end).
Proof.
  unfold CustomMerkleTree.verify.
  destruct (CustomMerkleTree.initialized self); [|reflexivity].
  destruct (CustomMerkleTree.tree self) as [tr|]; [|reflexivity].
  unfold MerkleTree.verify.
  rewrite <- (map_map (fun p => Hex.decode (Hex.slice 2 p))
                MerkleTree.NodeBuffer).
  now rewrite verify_loop_buffers.
Qed.

Lemma dynamic_buffers_texts (ps : list string) :
  mapM (fun p => let* b := Dynamic.buffer_of p in
                 Ok (MerkleTree.NodeBuffer b)) (map Dynamic.Str ps) =
  Ok (map (fun p => MerkleTree.NodeBuffer (Hex.decode (Hex.slice 2 p))) ps).
Proof.
  induction ps as [|p ps IH]; [reflexivity|].
  cbn [map mapM Dynamic.buffer_of Dynamic.slice2 bind].
  cbn [map] in IH. rewrite IH. reflexivity.
Qed.

Lemma dynamic_buffers_throw (elems : list Dynamic.value) :
  forallb Dynamic.is_text elems = false ->
  mapM (fun p => let* b := Dynamic.buffer_of p in
                 Ok (MerkleTree.NodeBuffer b)) elems =
  Throw Dynamic.type_error.
Proof.
  induction elems as [|v elems IH]; [discriminate|].
  cbn [forallb mapM]. destruct v as [s| | |]; try reflexivity.
  cbn [Dynamic.is_text andb Dynamic.buffer_of Dynamic.slice2 bind].
  intros H. now rewrite (IH H).
Qed.

(** C5, as stated, fails. Texts that are not hexadecimal are not answered
    with [false]: they read as the empty buffer. So the empty proof
    verifies the leaf [0xqq] against the root [0xzz] although the two
    differ, and the proof whose one element is [0xzz] verifies the leaf
    [0x] against the digest of the empty buffer. And a proof with an
    element that is not a string raises. *)
Lemma verify_accepts_malformed_and_raises :
  CustomMerkleTree.verify treeABA [] "0xzz" "0xqq" = Ok true /\
  "0xzz"%string <> "0xqq"%string /\
  CustomMerkleTree.verify treeABA ["0xzz"%string]
    "0xc5d2460186f7233c927e7db2dcc703c0e500b653ca82273b7bfad8045d85a470"
    "0x" = Ok true /\
  Dynamic.verify treeABA (Dynamic.Arr [Dynamic.Num 123])
    (Dynamic.Str "0xzz") (Dynamic.Str "0xqq") = Throw Dynamic.type_error.
Proof.
  split; [reflexivity|]. split; [discriminate|].
  split; [vm_compute; reflexivity|reflexivity].
Qed.

(** C5, amended. Given an array of strings as proof and strings as root
    and leaf, [verify] raises nothing and answers [false] when the wrapper
    is not initialised and otherwise whether folding the bytes read from
    the proof texts into the bytes read from the leaf text gives the bytes
    read from the root text; reading drops the first two characters and
    stops at the first pair that is not hexadecimal, so texts that are not
    hexadecimal are not refused as such. On values of any kind [verify]
    answers [false] when the wrapper is not initialised, agrees with the
    above on strings, and raises when the wrapper is initialised and the
    proof is not an array or an element of it, the leaf or the root is not
    a string. For an allowlist of one address the root is the text of that
    address's leaf, the proof is empty, and the empty proof verifies the
    text of a digest against the text of a root digest exactly when the
    two digests are the same. *)
Theorem verify_answers_and_singleton :
  (forall (self : CustomMerkleTree.t) (proof : list string)
          (root leaf : string),
      CustomMerkleTree.verify self proof root leaf =
      Ok (match CustomMerkleTree.initialized self,
                CustomMerkleTree.tree self with
          | true, Some _ =>
              Buffer.eqb
                (fold_left (MerkleTree.verify_step Keccak.keccak256)
                   (map (fun p => Hex.decode (Hex.slice 2 p)) proof)
                   (Hex.decode (Hex.slice 2 leaf)))
                (Hex.decode (Hex.slice 2 root))
          | _, _ => false
          end)) /\
  (forall (self : CustomMerkleTree.t) (proof : Dynamic.argument)
          (root leaf : Dynamic.value),
      CustomMerkleTree.initialized self = false \/
      CustomMerkleTree.tree self = None ->
      Dynamic.verify self proof root leaf = Ok false) /\
  (forall (self : CustomMerkleTree.t) (proof : list string)
          (root leaf : string),
      Dynamic.verify self (Dynamic.Arr (map Dynamic.Str proof))
        (Dynamic.Str root) (Dynamic.Str leaf) =
      CustomMerkleTree.verify self proof root leaf) /\
  (forall (self : CustomMerkleTree.t) (mt : MerkleTree.t)
          (proof : Dynamic.argument) (root leaf : Dynamic.value),
      CustomMerkleTree.initialized self = true ->
      CustomMerkleTree.tree self = Some mt ->
      Dynamic.texts proof root leaf = false ->
      Dynamic.verify self proof root leaf = Throw Dynamic.type_error) /\
  (forall (a : string) (l : Buffer.t),
      addressLeaf a = Ok l ->
      exists tree,
        buildMerkleTree [a] = Ok tree /\
        CustomMerkleTree.root tree = Some (Hex.hexlify l) /\
        getMerkleProof tree a [a] = Ok [] /\
        forall leaf root : Buffer.t,
          CustomMerkleTree.verify tree [] (Hex.hexlify root)
            (Hex.hexlify leaf) = Ok true <-> leaf = root).
Proof.
  split; [exact verify_fold|]. split; [|split; [|split]].
  - intros self proof root leaf H. unfold Dynamic.verify.
    destruct H as [-> | ->]; [reflexivity|].
    now destruct (CustomMerkleTree.initialized self).
  - intros self proof root leaf.
    unfold Dynamic.verify, CustomMerkleTree.verify.
    destruct (CustomMerkleTree.initialized self); [|reflexivity].
    destruct (CustomMerkleTree.tree self) as [tr|]; [|reflexivity].
    rewrite dynamic_buffers_texts. reflexivity.
  - intros self mt proof root leaf Hi Ht Hx. unfold Dynamic.verify.
    rewrite Hi, Ht. unfold Dynamic.texts in Hx.
    destruct proof as [elems|v]; [|reflexivity].
    destruct (forallb Dynamic.is_text elems) eqn:E.
    + destruct (mapM _ elems) as [bs|e] eqn:Em.
      * cbn [bind]. destruct leaf as [s| | |]; try reflexivity.
        destruct root as [r| | |]; try reflexivity.
        discriminate Hx.
      * exfalso. clear Hx. revert e Em.
        induction elems as [|v elems IH]; intros e Em; [discriminate|].
        cbn [forallb] in E. apply andb_prop in E as [Ev Ee].
        destruct v as [s| | |]; try discriminate Ev.
        cbn [mapM Dynamic.buffer_of Dynamic.slice2 bind] in Em.
        destruct (mapM _ elems) as [bs|e'] eqn:Em'; [discriminate|].
        now apply (IH Ee e').
    + now rewrite dynamic_buffers_throw.
  - intros a l Ha. exists (built [a] [l]). split; [|split; [|split]].
    + apply build_spec. exists [l]. split; [|reflexivity].
      repeat constructor; assumption.
    + rewrite built_root. unfold MerkleTree.getRoot, MerkleTree.make.
      cbn [MerkleTree.layers]. now rewrite layers_one.
    + unfold getMerkleProof. rewrite findIndex_head.
      change 0%Z with (Z.of_nat 0).
      rewrite (getProof_built [a] [l] 0 (leaf := l)) by reflexivity.
      now rewrite getProof_one.
    + intros leaf root. change (@nil string) with (map Hex.hexlify []).
      rewrite verify_built. cbn [fold_left]. split.
      * intros H. inversion H as [E]. now apply eqb_eq.
      * intros ->. now rewrite eqb_refl.
Qed.

Lemma verify_answers_and_singleton_witness :
  Dynamic.verify (CustomMerkleTree.new [] []) (Dynamic.Val Dynamic.Null)
    Dynamic.Undefined (Dynamic.Num 1) = Ok false /\
  Dynamic.verify treeABA (Dynamic.Val Dynamic.Null) (Dynamic.Str "0x")
    (Dynamic.Str "0x") = Throw Dynamic.type_error /\
  exists l tree,
    addressLeaf addrA = Ok l /\
    buildMerkleTree [addrA] = Ok tree /\
    CustomMerkleTree.root tree = Some (Hex.hexlify l) /\
    getMerkleProof tree addrA [addrA] = Ok [] /\
    forall leaf root : Buffer.t,
      CustomMerkleTree.verify tree [] (Hex.hexlify root)
        (Hex.hexlify leaf) = Ok true <-> leaf = root.
Proof.
  destruct verify_answers_and_singleton as (_ & Hun & _ & Hthrow & Hone).
  split; [|split].
  - apply Hun. left. reflexivity.
  - apply (Hthrow treeABA mtABA); reflexivity.
  - assert (exists l, addressLeaf addrA = Ok l) as [l E]
      by (vm_compute; eexists; reflexivity).
    destruct (Hone addrA l E) as (tree & H).
    exists l, tree. exact (conj E H).
Defined.

(** ** The empty allowlist *)

(** C6, at the empty allowlist. [buildMerkleTree] of [utils.js] has no
    guard for it: where the claim asks for a failure, the call returns an
    initialised wrapper without leaves, whose only layer is empty and whose
    root is the text [0x] of the empty buffer; every request for a proof
    then throws [Index out of bounds]. *)
Theorem empty_build :
  exists tree mt,
    buildMerkleTree [] = Ok tree /\
    CustomMerkleTree.initialized tree = true /\
    CustomMerkleTree.leaves tree = [] /\
    CustomMerkleTree.tree tree = Some mt /\
    MerkleTree.layers mt = [[]] /\
    CustomMerkleTree.root tree = Some "0x"%string /\
    forall index,
      CustomMerkleTree.getProof tree index =
      Throw (Error "Index out of bounds").
Proof.
  exists (built [] []), (MerkleTree.make Keccak.keccak256 []).
  repeat split.
  intros index. apply getProof_out_of_bounds. cbn. lia.
Qed.

(** ** Requests that fail *)

(** C7, as stated, fails: an address that is not in the allowlist and a
    position past the end of layer 0 are answered with the same error. *)
Lemma unknown_address_same_error :
  exists tree,
    buildMerkleTree [addrA; addrB] = Ok tree /\
    getMerkleProof tree addrC [addrA; addrB] =
      Throw (Error "Index out of bounds") /\
    CustomMerkleTree.getProof tree 2 = Throw (Error "Index out of bounds").
Proof.
  assert (exists t, buildMerkleTree [addrA; addrB] = Ok t) as [t E]
    by (vm_compute; eexists; reflexivity).
  exists t. split; [exact E|].
  apply build_spec in E as (lvs & _ & ->). split.
  - unfold getMerkleProof. rewrite findIndex_absent.
    + apply getProof_out_of_bounds. lia.
    + vm_compute. intuition discriminate.
  - apply getProof_out_of_bounds. cbn. lia.
Qed.

(** C7, amended. [getMerkleProof] has no error of its own for an unknown
    address: [findIndex] answers [-1] and [getProof] rejects it with the
    error [Index out of bounds], the very error it throws for every position
    outside layer 0. *)
Theorem unknown_address_index_error (L : list string) (a : string) :
  forallb valid_address L = true ->
  ~ In a L ->
  exists tree,
    buildMerkleTree L = Ok tree /\
    getMerkleProof tree a L = Throw (Error "Index out of bounds") /\
    forall index,
      (index < 0 \/ Z.of_nat (List.length L) <= index)%Z ->
      CustomMerkleTree.getProof tree index =
      Throw (Error "Index out of bounds").
Proof.
  intros Hvalid Hn. destruct (valid_leaves L Hvalid) as (lvs & HF).
  exists (built L lvs). split; [|split].
  - apply build_spec. eauto.
  - unfold getMerkleProof. rewrite findIndex_absent by assumption.
    apply getProof_out_of_bounds. lia.
  - intros index H. now apply getProof_out_of_bounds.
Qed.

Lemma unknown_address_index_error_witness :
  forallb valid_address [addrA; addrB] = true /\
  ~ In addrC [addrA; addrB] /\
  exists tree,
    buildMerkleTree [addrA; addrB] = Ok tree /\
    getMerkleProof tree addrC [addrA; addrB] =
      Throw (Error "Index out of bounds") /\
    forall index,
      (index < 0 \/ Z.of_nat (List.length [addrA; addrB]) <= index)%Z ->
      CustomMerkleTree.getProof tree index =
      Throw (Error "Index out of bounds").
Proof.
  assert (Hv : forallb valid_address [addrA; addrB] = true)
    by (vm_compute; reflexivity).
  assert (Hn : ~ In addrC [addrA; addrB])
    by (vm_compute; intuition discriminate).
  exact (conj Hv (conj Hn
    (unknown_address_index_error [addrA; addrB] addrC Hv Hn))).
Defined.

(** ** Proofs are looked up by leaf *)

(** C10, as stated, fails in its last part: with the same address at
    positions 0 and 2, the proof returned for position 0 is the walk from
    position 2, which differs from the walk from position 0, the first
    occurrence. *)
Lemma proof_not_of_first_occurrence :
  buildMerkleTree [addrA; addrB; addrA] = Ok treeABA /\
  CustomMerkleTree.tree treeABA = Some mtABA /\
  CustomMerkleTree.getProof treeABA 0 =
    Ok (render (MerkleTree.proof_walk (MerkleTree.layers mtABA) 2)) /\
  CustomMerkleTree.getProof treeABA 0 <>
    Ok (render (MerkleTree.proof_walk (MerkleTree.layers mtABA) 0)).
Proof.
  split; [|split; [|split]].
  - vm_compute. reflexivity.
  - reflexivity.
  - vm_compute. reflexivity.
  - intros H.
    apply (f_equal (fun r => match r with
                             | Ok l => List.length l
                             | Throw _ => 0
                             end)) in H.
    vm_compute in H. discriminate H.
Qed.

(** C10, amended. [getProof(index)] checks the bounds of [index] and then
    asks the library for the proof of the leaf stored there, so two
    positions that hold the same address get the same proof; the library
    keeps the last position whose leaf equals the one asked for, and the
    proof is the walk from that position. *)
Theorem proof_lookup_by_leaf (L : list string) (tree : CustomMerkleTree.t)
  (i j : nat) (a : string) :
  buildMerkleTree L = Ok tree ->
  nth_error L i = Some a ->
  nth_error L j = Some a ->
  CustomMerkleTree.getProof tree (Z.of_nat i) =
    CustomMerkleTree.getProof tree (Z.of_nat j) /\
  exists mt leaf k,
    CustomMerkleTree.tree tree = Some mt /\
    CustomMerkleTree.hashLeaf tree [a] = Ok leaf /\
    nth_error (MerkleTree.leaves mt) k = Some leaf /\
    (forall k', k < k' -> nth_error (MerkleTree.leaves mt) k' <> Some leaf) /\
    CustomMerkleTree.getProof tree (Z.of_nat i) =
      Ok (render (MerkleTree.proof_walk (MerkleTree.layers mt) k)).
Proof.
  intros Hb Hi Hj. apply build_spec in Hb as (lvs & HF & ->).
  destruct (Forall2_nth HF i Hi) as (leaf & Hli & Ha).
  destruct (Forall2_nth HF j Hj) as (leaf' & Hlj & Ha').
  assert (leaf' = leaf) by congruence. subst leaf'.
  assert (Hlen : List.length lvs = List.length L)
    by (symmetry; eapply Forall2_length; eauto).
  rewrite (getProof_built L lvs i Hlen Hli).
  rewrite (getProof_built L lvs j Hlen Hlj).
  split; [reflexivity|].
  destruct (last_occurrence leaf lvs (nth_error_In _ _ Hli))
    as (pre & post & E & Hn).
  exists (MerkleTree.make Keccak.keccak256 lvs), leaf, (List.length pre).
  split; [reflexivity|]. split; [exact Ha|].
  cbn [MerkleTree.make MerkleTree.leaves MerkleTree.layers].
  split; [|split].
  - rewrite E, nth_error_app2 by lia. now rewrite Nat.sub_diag.
  - intros k' Hk H. rewrite E in H.
    rewrite nth_error_app2 in H by lia.
    destruct (k' - List.length pre) as [|m] eqn:Em; [lia|].
    cbn in H. apply nth_error_In in H. contradiction.
  - erewrite getProof_last; [reflexivity|exact E|exact Hn].
Qed.

Lemma proof_lookup_by_leaf_witness :
  CustomMerkleTree.getProof treeABA (Z.of_nat 0) =
    CustomMerkleTree.getProof treeABA (Z.of_nat 2) /\
  exists mt leaf k,
    CustomMerkleTree.tree treeABA = Some mt /\
    CustomMerkleTree.hashLeaf treeABA [addrA] = Ok leaf /\
    nth_error (MerkleTree.leaves mt) k = Some leaf /\
    (forall k', k < k' -> nth_error (MerkleTree.leaves mt) k' <> Some leaf) /\
    CustomMerkleTree.getProof treeABA (Z.of_nat 0) =
      Ok (render (MerkleTree.proof_walk (MerkleTree.layers mt) k)).
Proof.
  apply (proof_lookup_by_leaf [addrA; addrB; addrA] 0 2 (a := addrA)).
  - vm_compute. reflexivity.
  - reflexivity.
  - reflexivity.
Defined.

(** ** The contract's check *)

(** Given one leaf, OpenZeppelin's fold and the library's fold compute the
    same digest: the two verifiers differ in the leaf alone. *)
Lemma processProof_fold (proof : list Buffer.t) (leaf : Buffer.t) :
  MerkleProof.processProof proof leaf =
  fold_left (MerkleTree.verify_step Keccak.keccak256) proof leaf.
Proof.
  unfold MerkleProof.processProof. revert leaf.
  induction proof as [|d proof IH]; intros leaf; cbn [fold_left]; auto.
  rewrite IH. f_equal.
  unfold MerkleProof.hashPair, MerkleTree.verify_step, Buffer.concat.
  cbn [List.concat]. now rewrite !app_nil_r.
Qed.

(** C2, at the allowlist of the application and of the tests (the
    deployer and the minter, the proof being the minter's): the wrapper's
    [verify] accepts the proof it generated, and [isAddressAllowed] of
    [NFT.sol], holding the root of the same tree, rejects it, because its
    leaf is the single hash of the 20 address bytes and not the double hash
    of the 32-byte encoding. *)
Theorem contract_rejects_generated_proof :
  forall st : NFT.state,
    allowlist_check st [account0; account1] account1 = Ok (true, false).
Proof. intros st. vm_compute. reflexivity. Qed.

(** ** The digest has 32 bytes *)

Lemma round_length (st : list N) (rc : N) :
  List.length (Keccak.round st rc) = 25.
Proof.
  unfold Keccak.round, Keccak.iota.
  assert (H : List.length (Keccak.chi (Keccak.rho_pi (Keccak.theta st))) = 25)
    by (unfold Keccak.chi; now rewrite length_map).
  destruct (Keccak.chi (Keccak.rho_pi (Keccak.theta st))); [discriminate|].
  exact H.
Qed.

Lemma absorb_length (n : nat) :
  forall st msg, List.length st = 25 ->
  List.length (Keccak.absorb n st msg) = 25.
Proof.
  induction n as [|n IH]; intros st msg H; cbn [Keccak.absorb].
  - exact H.
  - apply IH. unfold Keccak.keccak_f, Keccak.round_constants.
    cbn [fold_left]. apply round_length.
Qed.

Lemma squeeze_length (st : list N) :
  List.length st = 25 -> List.length (Keccak.squeeze st) = 32.
Proof.
  intros H. destruct st as [|a [|b [|c [|d st]]]]; try discriminate.
  reflexivity.
Qed.

Lemma keccak256_length (msg : list byte) :
  List.length (Keccak.keccak256 msg) = 32.
Proof.
  unfold Keccak.keccak256. apply squeeze_length, absorb_length.
  reflexivity.
Qed.

(** ** Address texts *)


Lemma toLowerCase_cons (c : ascii) (s : string) :
  Ethers.toLowerCase (String c s) =
  String (Ethers.lower c) (Ethers.toLowerCase s).
Proof. reflexivity. Qed.

Lemma toLowerCase_length (s : string) :
  String.length (Ethers.toLowerCase s) = String.length s.
Proof.
  induction s as [|c s IH]; [reflexivity|].
  rewrite toLowerCase_cons. cbn [String.length]. now rewrite IH.
Qed.

Lemma toLowerCase_0x (s : string) :
  Ethers.toLowerCase ("0x" ++ s) = ("0x" ++ Ethers.toLowerCase s)%string.
Proof. cbn [String.append]. now rewrite !toLowerCase_cons. Qed.

(** The text [getAddress] hands to [getChecksumAddress]. *)
Lemma getAddress_ok (a checked : string) :
  Ethers.getAddress a = Ok checked ->
  Ethers.is_hex_address a = true /\
  checked =
    Ethers.getChecksumAddress
      (if Ethers.has_0x a then a else ("0x" ++ a)%string).
Proof.
  unfold Ethers.getAddress.
  destruct (Ethers.is_hex_address a); [|discriminate].
  destruct (_ && _); [discriminate|].
  intros H. inversion H. auto.
Qed.

Lemma hex_address_length (a : string) :
  Ethers.is_hex_address a = true ->
  String.length a = if Ethers.has_0x a then 42 else 40.
Proof.
  unfold Ethers.is_hex_address. intros H. apply andb_prop in H as [H _].
  apply Nat.eqb_eq in H.
  destruct (Ethers.has_0x a) eqn:E; [|exact H].
  destruct a as [|c1 [|c2 a]]; try discriminate. cbn in *. lia.
Qed.

Lemma same_checksum (a b ca cb : string) :
  Ethers.toLowerCase a = Ethers.toLowerCase b ->
  Ethers.getAddress a = Ok ca ->
  Ethers.getAddress b = Ok cb ->
  ca = cb.
Proof.
  intros Hl Ha Hb.
  apply getAddress_ok in Ha as [Hha ->]. apply getAddress_ok in Hb as [Hhb ->].
  pose proof (hex_address_length a Hha) as La.
  pose proof (hex_address_length b Hhb) as Lb.
  pose proof (f_equal String.length Hl) as Hlen.
  rewrite !toLowerCase_length in Hlen.
  unfold Ethers.getChecksumAddress.
  destruct (Ethers.has_0x a), (Ethers.has_0x b); try lia.
  - now rewrite Hl.
  - now rewrite !toLowerCase_0x, Hl.
Qed.







(** ** Leaves *)



(** On the sample address the leaf differs from the single hash. *)
Example leaf_is_not_single_hash :
  addressLeaf addrA = Ok leafA /\
  Ethers.abi_encode_address addrA =
    Ok "0x000000000000000000000000aaaaaaaaaaaaaaaaaaaaaaaaaaaaaaaaaaaaaa01"%string
  /\
  leafA <>
    Keccak.keccak256
      (Hex.decode
         "000000000000000000000000aaaaaaaaaaaaaaaaaaaaaaaaaaaaaaaaaaaaaa01").
Proof.
  split; [vm_compute; reflexivity|]. split; [vm_compute; reflexivity|].
  intros H. apply (f_equal (fun b => hd x00 b)) in H.
  vm_compute in H. discriminate H.
Qed.

(** ** Letter case *)

(** C9, as stated, fails for proof lookup: the upper-case text of an
    allowlisted address has the same leaf, yet no proof is obtained
    for it. *)
Lemma lookup_is_case_sensitive :
  Ethers.toLowerCase addrA_upper = Ethers.toLowerCase addrA /\
  addressLeaf addrA_upper = addressLeaf addrA /\
  buildMerkleTree [addrA] = Ok (built [addrA] [leafA]) /\
  getMerkleProof (built [addrA] [leafA]) addrA [addrA] = Ok [] /\
  getMerkleProof (built [addrA] [leafA]) addrA_upper [addrA] =
    Throw (Error "Index out of bounds").
Proof.
  split; [reflexivity|]. split; [vm_compute; reflexivity|].
  split; [vm_compute; reflexivity|].
  split; vm_compute; reflexivity.
Qed.

(** C9, amended. Leaf encoding normalises letter case: two texts of one
    address that differ only in the case of their letters, both accepted by
    the encoder, have the same leaf. Proof lookup does not: [getMerkleProof]
    compares the text given with the allowlist entries by [===], so a proof
    is obtained for the exact text of an entry, and a text equal to no entry
    (another casing of an entry included) is answered with
    [Index out of bounds]. *)
Theorem leaf_normalised_lookup_exact :
  (forall (a b : string) (la lb : Buffer.t),
      Ethers.toLowerCase a = Ethers.toLowerCase b ->
      addressLeaf a = Ok la -> addressLeaf b = Ok lb ->
      la = lb) /\
  (forall (L : list string) (a b : string),
      forallb valid_address L = true ->
      In a L -> ~ In b L ->
      exists tree proof,
        buildMerkleTree L = Ok tree /\
        getMerkleProof tree a L = Ok proof /\
        getMerkleProof tree b L = Throw (Error "Index out of bounds")).
Proof.
  split.
  - intros a b la lb Hl Ha Hb.
    rewrite addressLeaf_spec in Ha, Hb.
    destruct (Ethers.getAddress a) as [ca|] eqn:Ea; [|discriminate].
    destruct (Ethers.getAddress b) as [cb|] eqn:Eb; [|discriminate].
    cbn [bind] in Ha, Hb. rewrite (same_checksum _ _ Hl Ea Eb) in Ha.
    congruence.
  - intros L a b Hvalid Ha Hb.
    destruct (valid_leaves L Hvalid) as (lvs & HF).
    destruct (present_address_proof a HF Ha) as (leaf & _ & _ & Hp).
    exists (built L lvs). eexists. split; [|split; [exact Hp|]].
    + apply build_spec. eauto.
    + unfold getMerkleProof. rewrite findIndex_absent by assumption.
      apply getProof_out_of_bounds. lia.
Qed.

Lemma leaf_normalised_lookup_exact_witness :
  (exists la lb,
      addressLeaf addrA = Ok la /\ addressLeaf addrA_upper = Ok lb /\
      la = lb) /\
  (exists tree proof,
      buildMerkleTree [addrA; addrB] = Ok tree /\
      getMerkleProof tree addrA [addrA; addrB] = Ok proof /\
      getMerkleProof tree addrA_upper [addrA; addrB] =
        Throw (Error "Index out of bounds")).
Proof.
  split.
  - assert (exists la, addressLeaf addrA = Ok la) as [la Ea]
      by (vm_compute; eexists; reflexivity).
    assert (exists lb, addressLeaf addrA_upper = Ok lb) as [lb Eb]
      by (vm_compute; eexists; reflexivity).
    exists la, lb. split; [exact Ea|]. split; [exact Eb|].
    exact (proj1 leaf_normalised_lookup_exact addrA addrA_upper la lb
             eq_refl Ea Eb).
  - apply (proj2 leaf_normalised_lookup_exact [addrA; addrB] addrA
             addrA_upper).
    + vm_compute. reflexivity.
    + now left.
    + vm_compute. intuition discriminate.
Defined.

(** * Further properties of [utils.js] *)

(** ** Which allowlists can be built *)

Lemma build_as_mapM (L : list string) :
  buildMerkleTree L =
  let* lvs := mapM addressLeaf L in Ok (built L lvs).
Proof.
  unfold buildMerkleTree, CustomMerkleTree.initialize.
  cbn [CustomMerkleTree.new CustomMerkleTree.initialized
       CustomMerkleTree.values CustomMerkleTree.leafEncoding].
  unfold wrapAddresses at 2. rewrite mapM_map. reflexivity.
Qed.

Lemma mapM_throws_some (A B : Type) (f : A -> result B) (l : list A)
  (a : A) :
  In a l -> (exists e, f a = Throw e) -> exists e, mapM f l = Throw e.
Proof.
  intros Hin Ha. induction l as [|x l IH]; [destruct Hin|].
  cbn [mapM]. destruct (f x) as [b|e] eqn:E; cbn [bind]; [|eauto].
  destruct Hin as [-> | Hin].
  - destruct Ha as (e & Ha). congruence.
  - destruct (IH Hin) as (e & ->). cbn [bind]. eauto.
Qed.

(** X1. [buildMerkleTree] builds all or nothing. When every address of
    the list is a text of the hexadecimal form that [getAddress] accepts,
    the call returns an initialised wrapper with one leaf for each address.
    When some address of the list, wherever it stands, is neither such a
    text nor of the ICAP form, the call fails and no wrapper is returned. *)
Theorem build_all_or_nothing :
  (forall L : list string,
      forallb valid_address L = true ->
      exists tree,
        buildMerkleTree L = Ok tree /\
        CustomMerkleTree.initialized tree = true /\
        List.length (CustomMerkleTree.leaves tree) = List.length L) /\
  (forall (L : list string) (a : string),
      In a L ->
      is_icap_form a = false ->
      valid_address a = false ->
      exists e, buildMerkleTree L = Throw e).
Proof.
  split.
  - intros L H. destruct (valid_leaves L H) as (lvs & HF).
    exists (built L lvs). split; [apply build_spec; eauto|].
    split; [reflexivity|]. cbn [built CustomMerkleTree.leaves].
    symmetry. exact (Forall2_length HF).
  - intros L a Hin _ Ha. rewrite build_as_mapM.
    destruct (mapM_throws_some addressLeaf L a Hin) as (e & ->).
    + rewrite addressLeaf_spec. unfold valid_address in Ha.
      destruct (Ethers.getAddress a) as [c|e]; [discriminate|].
      cbn [bind]. eauto.
    + cbn [bind]. eauto.
Qed.

Lemma build_all_or_nothing_witness :
  exists e, buildMerkleTree [addrA; "0x1234"%string; addrB] = Throw e.
Proof.
  apply (proj2 build_all_or_nothing [addrA; "0x1234"%string; addrB]
           "0x1234"%string).
  - right. left. reflexivity.
  - vm_compute. reflexivity.
  - vm_compute. reflexivity.
Defined.

(** ** What a built wrapper holds *)

(** X2. In the wrapper [buildMerkleTree] returns, the leaves are in the
    order of the allowlist: there are as many leaves as addresses, the leaf
    at each position is [hashLeaf] of the address at that position, the
    library tree holds the same leaves, and they are its layer 0. *)
Theorem built_leaf_order (L : list string) (tree : CustomMerkleTree.t) :
  buildMerkleTree L = Ok tree ->
  CustomMerkleTree.initialized tree = true /\
  CustomMerkleTree.values tree = wrapAddresses L /\
  List.length (CustomMerkleTree.leaves tree) = List.length L /\
  (exists mt,
      CustomMerkleTree.tree tree = Some mt /\
      MerkleTree.leaves mt = CustomMerkleTree.leaves tree /\
      nth_error (MerkleTree.layers mt) 0 =
        Some (CustomMerkleTree.leaves tree)) /\
  (forall i a,
      nth_error L i = Some a ->
      exists leaf,
        nth_error (CustomMerkleTree.leaves tree) i = Some leaf /\
        CustomMerkleTree.hashLeaf tree [a] = Ok leaf).
Proof.
  intros H. apply build_spec in H as (lvs & HF & ->).
  split; [reflexivity|]. split; [reflexivity|]. split; [|split].
  - symmetry. eapply Forall2_length; eauto.
  - exists (MerkleTree.make Keccak.keccak256 lvs).
    split; [reflexivity|]. split; [reflexivity|].
    cbn [MerkleTree.make MerkleTree.layers].
    now rewrite createHashes_unfold.
  - intros i a Hi. destruct (Forall2_nth HF i Hi) as (leaf & Hl & Ha).
    exists leaf. split; [exact Hl|]. now rewrite hashLeaf_built.
Qed.

Lemma built_leaf_order_witness :
  CustomMerkleTree.initialized treeABA = true /\
  CustomMerkleTree.values treeABA = wrapAddresses [addrA; addrB; addrA] /\
  List.length (CustomMerkleTree.leaves treeABA) =
    List.length [addrA; addrB; addrA] /\
  (exists mt,
      CustomMerkleTree.tree treeABA = Some mt /\
      MerkleTree.leaves mt = CustomMerkleTree.leaves treeABA /\
      nth_error (MerkleTree.layers mt) 0 =
        Some (CustomMerkleTree.leaves treeABA)) /\
  (forall i a,
      nth_error [addrA; addrB; addrA] i = Some a ->
      exists leaf,
        nth_error (CustomMerkleTree.leaves treeABA) i = Some leaf /\
        CustomMerkleTree.hashLeaf treeABA [a] = Ok leaf).
Proof.
  apply (@built_leaf_order [addrA; addrB; addrA] treeABA).
  vm_compute. reflexivity.
Defined.

(** ** Before and after [initialize] *)

(** X3. A wrapper that has not been initialised has no root, throws
    [Tree not initialized] for every index (in range or not) and answers
    [false] to every verification. [initialize] changes that once: when it
    succeeds the result is initialised, and initialising the result again
    returns it as it is. *)
Theorem wrapper_lifecycle :
  (forall (values : list (list string)) (leafEncoding : list string),
      let self := CustomMerkleTree.new values leafEncoding in
      CustomMerkleTree.root self = None /\
      (forall index,
          CustomMerkleTree.getProof self index =
          Throw (Error "Tree not initialized. Call initialize() first.")) /\
      (forall proof root leaf,
          CustomMerkleTree.verify self proof root leaf = Ok false)) /\
  (forall self tree : CustomMerkleTree.t,
      CustomMerkleTree.initialize self = Ok tree ->
      CustomMerkleTree.initialized tree = true /\
      CustomMerkleTree.initialize tree = Ok tree).
Proof.
  split.
  - intros values leafEncoding self. repeat split.
  - intros self tree. unfold CustomMerkleTree.initialize at 1.
    destruct (CustomMerkleTree.initialized self) eqn:E.
    + intros H. inversion H; subst.
      unfold CustomMerkleTree.initialize. now rewrite E.
    + destruct (mapM _ _); cbn [bind]; [|discriminate].
      intros H. inversion H; subst. split; reflexivity.
Qed.

Lemma wrapper_lifecycle_witness :
  CustomMerkleTree.initialized treeABA = true /\
  CustomMerkleTree.initialize treeABA = Ok treeABA.
Proof.
  apply (proj2 wrapper_lifecycle
           (CustomMerkleTree.new (wrapAddresses [addrA; addrB; addrA])
              ["address"%string])).
  vm_compute. reflexivity.
Defined.

(** ** Shape of the layers *)

Lemma log2_up_half (n : nat) :
  1 < n -> Nat.log2_up n = S (Nat.log2_up ((n + 1) / 2)).
Proof.
  intros Hn. destruct (Nat.Even_or_Odd n) as [[a ->]|[a ->]].
  - replace ((2 * a + 1) / 2) with a
      by (apply Nat.div_unique with 1; lia).
    apply Nat.log2_up_double. lia.
  - replace ((2 * a + 1 + 1) / 2) with (a + 1)
      by (apply Nat.div_unique with 0; lia).
    rewrite Nat.log2_up_succ_double by lia.
    destruct (Nat.eq_dec a 1) as [->|Ha]; [reflexivity|].
    rewrite (Nat.log2_up_eqn (a + 1)) by lia.
    now replace (Nat.pred (a + 1)) with a by lia.
Qed.

Section MerkleTreeShape.

Variable hashFn : Buffer.t -> Buffer.t.

Lemma next_layer_half (nodes : list Buffer.t) :
  List.length (MerkleTree.next_layer hashFn nodes) =
  (List.length nodes + 1) / 2.
Proof.
  induction nodes as [|a|a b rest IH] using list_pair_ind.
  - reflexivity.
  - reflexivity.
  - cbn [MerkleTree.next_layer List.length]. rewrite IH.
    replace (S (S (List.length rest)) + 1)
      with (1 * 2 + (List.length rest + 1)) by lia.
    now rewrite Nat.div_add_l by lia.
Qed.

Lemma layers_count (nodes : list Buffer.t) :
  List.length (MerkleTree.createHashes hashFn nodes) =
  S (Nat.log2_up (List.length nodes)).
Proof.
  induction nodes as [nodes IH] using (well_founded_induction
    (Wf_nat.well_founded_ltof _ (@List.length Buffer.t))).
  rewrite createHashes_unfold.
  destruct (Nat.ltb_spec 1 (List.length nodes)) as [Hlen|Hlen].
  - cbn [List.length]. rewrite IH by now apply next_layer_shorter.
    now rewrite next_layer_half, <- log2_up_half.
  - cbn [List.length]. now rewrite Nat.log2_up_eqn0.
Qed.

Lemma last_layer (nodes : list Buffer.t) :
  nodes <> [] ->
  exists root,
    last (MerkleTree.createHashes hashFn nodes) [] = [root] /\
    MerkleTree.getRoot (MerkleTree.make hashFn nodes) = root.
Proof.
  induction nodes as [nodes IH] using (well_founded_induction
    (Wf_nat.well_founded_ltof _ (@List.length Buffer.t))).
  intros Hne.
  destruct (Nat.ltb_spec 1 (List.length nodes)) as [Hlen|Hlen].
  - rewrite getRoot_step by assumption.
    destruct (IH (MerkleTree.next_layer hashFn nodes)) as (root & Hl & Hr).
    + now apply next_layer_shorter.
    + intros E. apply (f_equal (@List.length _)) in E.
      rewrite next_layer_half in E.
      change (List.length (@nil Buffer.t)) with 0 in E.
      assert (1 <= (List.length nodes + 1) / 2)
        by (apply Nat.div_le_lower_bound; lia).
      lia.
    + exists root. split; [|exact Hr].
      rewrite createHashes_unfold.
      apply Nat.ltb_lt in Hlen. rewrite Hlen.
      rewrite last_cons. rewrite <- Hl.
      rewrite (createHashes_unfold hashFn (MerkleTree.next_layer hashFn nodes)).
      now rewrite !last_cons.
  - destruct nodes as [|a [|b rest]]; cbn in Hlen; try lia;
      [contradiction|].
    exists a. now rewrite layers_one.
Qed.

Lemma walk_length (nodes : list Buffer.t) :
  forall i,
    i < List.length nodes ->
    List.length
      (MerkleTree.proof_walk (MerkleTree.createHashes hashFn nodes) i)
    <= Nat.log2_up (List.length nodes).
Proof.
  induction nodes as [nodes IH] using (well_founded_induction
    (Wf_nat.well_founded_ltof _ (@List.length Buffer.t))).
  intros i Hi. rewrite createHashes_unfold.
  destruct (Nat.ltb_spec 1 (List.length nodes)) as [Hlen|Hlen].
  - cbn [MerkleTree.proof_walk].
    assert (Hrec :
      List.length
        (MerkleTree.proof_walk
           (MerkleTree.createHashes hashFn (MerkleTree.next_layer hashFn nodes))
           (i / 2))
      <= Nat.log2_up ((List.length nodes + 1) / 2)).
    { rewrite <- next_layer_half. apply IH.
      - now apply next_layer_shorter.
      - rewrite next_layer_half.
        apply Nat.Div0.div_lt_upper_bound.
        pose proof (Nat.div_mod_eq (List.length nodes + 1) 2).
        pose proof (Nat.mod_upper_bound (List.length nodes + 1) 2).
        lia. }
    rewrite (log2_up_half Hlen).
    destruct (nth_error nodes _); cbn [List.length]; lia.
  - destruct nodes as [|a [|b rest]]; cbn in Hlen, Hi; try lia.
    assert (i = 0) by lia. subst. cbn. lia.
Qed.

(** Every node of every layer is a leaf or an output of the hash. *)
Lemma layers_nodes (P : Buffer.t -> Prop) (nodes : list Buffer.t) :
  (forall m, P (hashFn m)) ->
  Forall P nodes ->
  Forall (Forall P) (MerkleTree.createHashes hashFn nodes).
Proof.
  intros Hh.
  induction nodes as [nodes IH] using (well_founded_induction
    (Wf_nat.well_founded_ltof _ (@List.length Buffer.t))).
  intros HP. rewrite createHashes_unfold. constructor; [exact HP|].
  destruct (Nat.ltb_spec 1 (List.length nodes)) as [Hlen|Hlen];
    [|constructor].
  apply IH; [now apply next_layer_shorter|].
  clear IH Hlen.
  induction nodes as [|a|a b rest IHr] using list_pair_ind.
  - constructor.
  - exact HP.
  - cbn [MerkleTree.next_layer]. inversion HP as [|? ? _ HP']; subst.
    inversion HP' as [|? ? _ HP'']; subst.
    constructor; [apply Hh|auto].
Qed.

Lemma walk_nodes (P : Buffer.t -> Prop) (lys : list (list Buffer.t)) :
  Forall (Forall P) lys ->
  forall i, Forall (fun p => P (MerkleTree.data p))
              (MerkleTree.proof_walk lys i).
Proof.
  induction 1 as [|layer lys Hl _ IH]; intros i; cbn [MerkleTree.proof_walk].
  - constructor.
  - destruct (nth_error layer _) as [s|] eqn:E; [|apply IH].
    constructor; [|apply IH]. cbn.
    rewrite Forall_forall in Hl. apply Hl. eapply nth_error_In; eauto.
Qed.

End MerkleTreeShape.

Lemma leaves_are_digests (L : list string) (lvs : list Buffer.t) :
  Forall2 (fun a l => addressLeaf a = Ok l) L lvs ->
  Forall (fun l => List.length l = 32) lvs.
Proof.
  induction 1 as [|a l L lvs Ha _ IH]; constructor; [|exact IH].
  rewrite addressLeaf_spec in Ha.
  destruct (Ethers.getAddress a); [|discriminate].
  cbn [bind] in Ha. inversion Ha. apply keccak256_length.
Qed.

Lemma last_in_cons (A : Type) (l : list A) (x : A) :
  In (last l x) (x :: l).
Proof.
  revert x; induction l as [|y l IH]; intros x; [now left|].
  right. rewrite last_cons. apply IH.
Qed.

Lemma render_length (proof : list MerkleTree.proof_item) :
  List.length (render proof) = List.length proof.
Proof. apply length_map. Qed.

(** What [getProof] of a built wrapper returns when it returns. *)
Lemma getProof_built_inv (L : list string) (lvs : list Buffer.t)
  (index : Z) (proof : list string) :
  List.length lvs = List.length L ->
  CustomMerkleTree.getProof (built L lvs) index = Ok proof ->
  exists i leaf pre post,
    index = Z.of_nat i /\ nth_error lvs i = Some leaf /\
    lvs = pre ++ leaf :: post /\ ~ In leaf post /\
    proof =
      render (MerkleTree.proof_walk
                (MerkleTree.createHashes Keccak.keccak256 lvs)
                (List.length pre)).
Proof.
  intros Hlen. unfold CustomMerkleTree.getProof, built.
  cbn [CustomMerkleTree.initialized CustomMerkleTree.values
       CustomMerkleTree.leaves CustomMerkleTree.tree negb].
  rewrite wrapAddresses_length.
  destruct (Z.ltb_spec index 0); [discriminate|].
  destruct (Z.geb_spec index (Z.of_nat (List.length L))); [discriminate|].
  cbn [orb].
  destruct (nth_error lvs (Z.to_nat index)) as [leaf|] eqn:E;
    [|discriminate].
  intros Hok. inversion Hok as [Hp]. clear Hok.
  destruct (last_occurrence leaf lvs (nth_error_In _ _ E))
    as (pre & post & Hsplit & Hn).
  exists (Z.to_nat index), leaf, pre, post.
  split; [lia|]. split; [exact E|]. split; [exact Hsplit|].
  split; [exact Hn|].
  erewrite getProof_last; [reflexivity|exact Hsplit|exact Hn].
Qed.

(** ** Proofs by position *)

(** X4. In a built wrapper every position of the allowlist has a proof:
    [getProof(i)] returns for each [i] below the length of the list, and
    what it returns verifies the leaf stored at [i] against the root, also
    when the same address occurs more than once. *)
Theorem proof_for_every_position (L : list string)
  (tree : CustomMerkleTree.t) (i : nat) :
  buildMerkleTree L = Ok tree ->
  i < List.length L ->
  exists proof leaf root,
    CustomMerkleTree.getProof tree (Z.of_nat i) = Ok proof /\
    nth_error (CustomMerkleTree.leaves tree) i = Some leaf /\
    CustomMerkleTree.root tree = Some root /\
    CustomMerkleTree.verify tree proof root (Hex.hexlify leaf) = Ok true.
Proof.
  intros Hb Hi. apply build_spec in Hb as (lvs & HF & ->).
  assert (Hlen : List.length lvs = List.length L)
    by (symmetry; eapply Forall2_length; eauto).
  destruct (nth_error lvs i) as [leaf|] eqn:E;
    [|apply nth_error_None in E; lia].
  exists (render (MerkleTree.getProof
                    (MerkleTree.make Keccak.keccak256 lvs) leaf)), leaf.
  eexists. split; [now apply getProof_built|]. split; [exact E|].
  split; [apply built_root|].
  apply built_proof_verifies. eapply nth_error_In; eauto.
Qed.

Lemma proof_for_every_position_witness :
  exists proof leaf root,
    CustomMerkleTree.getProof treeABA (Z.of_nat 2) = Ok proof /\
    nth_error (CustomMerkleTree.leaves treeABA) 2 = Some leaf /\
    CustomMerkleTree.root treeABA = Some root /\
    CustomMerkleTree.verify treeABA proof root (Hex.hexlify leaf) = Ok true.
Proof.
  apply (@proof_for_every_position [addrA; addrB; addrA] treeABA 2).
  - vm_compute. reflexivity.
  - cbn. lia.
Defined.

(** ** Digests as [bytes32] *)

(** X5. For a non-empty allowlist the root and every element of every
    proof the wrapper returns are the [0x] text of a 32-byte digest: 66
    characters that [arrayify] reads back as those 32 bytes, the form a
    [bytes32] argument of the contract takes. *)
Theorem digests_are_bytes32 (L : list string) (tree : CustomMerkleTree.t) :
  buildMerkleTree L = Ok tree ->
  L <> [] ->
  let bytes32 := fun s : string =>
    exists b, s = Hex.hexlify b /\ List.length b = 32 /\
              Ethers.arrayify s = Ok b /\ String.length s = 66 in
  (exists root, CustomMerkleTree.root tree = Some root /\ bytes32 root) /\
  (forall index proof,
      CustomMerkleTree.getProof tree index = Ok proof ->
      Forall bytes32 proof).
Proof.
  intros Hb Hne bytes32. apply build_spec in Hb as (lvs & HF & ->).
  assert (Hlen : List.length lvs = List.length L)
    by (symmetry; eapply Forall2_length; eauto).
  assert (H32 : forall b, List.length b = 32 -> bytes32 (Hex.hexlify b)).
  { intros b Hl. exists b. split; [reflexivity|]. split; [exact Hl|].
    split; [apply arrayify_hexlify|].
    do 33 (destruct b as [|? b]; try discriminate Hl). reflexivity. }
  pose proof (@layers_nodes Keccak.keccak256
                (fun l => List.length l = 32) lvs keccak256_length
                (leaves_are_digests HF)) as Hall.
  split.
  - exists (Hex.hexlify
              (MerkleTree.getRoot (MerkleTree.make Keccak.keccak256 lvs))).
    split; [apply built_root|]. apply H32.
    destruct (@last_layer Keccak.keccak256 lvs) as (r & Hl & ->).
    + intros ->. destruct L; [contradiction|discriminate].
    + rewrite Forall_forall in Hall.
      assert (Hin : In [r] (MerkleTree.createHashes Keccak.keccak256 lvs)).
      { rewrite <- Hl. rewrite createHashes_unfold.
        rewrite last_cons. apply last_in_cons. }
      specialize (Hall _ Hin). now inversion Hall.
  - intros index proof Hp.
    apply getProof_built_inv in Hp as (i & leaf & pre & post & _ & _ & _ & _ & ->);
      [|exact Hlen].
    unfold render. apply Forall_map.
    eapply Forall_impl; [|apply (@walk_nodes _ _ Hall)].
    intros p Hp. now apply H32.
Qed.

Lemma digests_are_bytes32_witness :
  (exists root,
      CustomMerkleTree.root treeABA = Some root /\
      exists b, root = Hex.hexlify b /\ List.length b = 32 /\
                Ethers.arrayify root = Ok b /\ String.length root = 66) /\
  (forall index proof,
      CustomMerkleTree.getProof treeABA index = Ok proof ->
      Forall (fun s : string =>
                exists b, s = Hex.hexlify b /\ List.length b = 32 /\
                          Ethers.arrayify s = Ok b /\ String.length s = 66)
        proof).
Proof.
  apply (@digests_are_bytes32 [addrA; addrB; addrA] treeABA).
  - vm_compute. reflexivity.
  - discriminate.
Defined.

(** ** Number of layers and length of proofs *)

(** X6. The library tree of a built wrapper has one layer more than the
    binary logarithm, rounded up, of the number of addresses; each layer
    above the leaves is computed from the one below and has half its
    length, rounded up; and for a non-empty allowlist the last layer is the
    single node whose text is the root. *)
Theorem tree_layers_shape (L : list string) (tree : CustomMerkleTree.t) :
  buildMerkleTree L = Ok tree ->
  exists mt,
    CustomMerkleTree.tree tree = Some mt /\
    List.length (MerkleTree.layers mt) = S (Nat.log2_up (List.length L)) /\
    (forall i layer next,
        nth_error (MerkleTree.layers mt) i = Some layer ->
        nth_error (MerkleTree.layers mt) (S i) = Some next ->
        next = MerkleTree.next_layer Keccak.keccak256 layer /\
        List.length next = (List.length layer + 1) / 2) /\
    (L <> [] ->
     exists root,
       last (MerkleTree.layers mt) [] = [root] /\
       CustomMerkleTree.root tree = Some (Hex.hexlify root)).
Proof.
  intros Hb. apply build_spec in Hb as (lvs & HF & ->).
  assert (Hlen : List.length lvs = List.length L)
    by (symmetry; eapply Forall2_length; eauto).
  exists (MerkleTree.make Keccak.keccak256 lvs).
  cbn [built CustomMerkleTree.tree MerkleTree.make MerkleTree.layers].
  split; [reflexivity|]. split; [|split].
  - now rewrite layers_count, Hlen.
  - intros i layer next Hl Hn.
    pose proof (layers_chain _ _ _ Hl Hn) as ->.
    split; [reflexivity|apply next_layer_half].
  - intros Hne. destruct (@last_layer Keccak.keccak256 lvs) as (r & Hl & Hr).
    + intros ->. destruct L; [contradiction|discriminate].
    + exists r. split; [exact Hl|]. rewrite built_root. now rewrite Hr.
Qed.

Lemma tree_layers_shape_witness :
  exists mt,
    CustomMerkleTree.tree treeABA = Some mt /\
    List.length (MerkleTree.layers mt) =
      S (Nat.log2_up (List.length [addrA; addrB; addrA])) /\
    (forall i layer next,
        nth_error (MerkleTree.layers mt) i = Some layer ->
        nth_error (MerkleTree.layers mt) (S i) = Some next ->
        next = MerkleTree.next_layer Keccak.keccak256 layer /\
        List.length next = (List.length layer + 1) / 2) /\
    ([addrA; addrB; addrA] <> [] ->
     exists root,
       last (MerkleTree.layers mt) [] = [root] /\
       CustomMerkleTree.root treeABA = Some (Hex.hexlify root)).
Proof.
  apply (@tree_layers_shape [addrA; addrB; addrA] treeABA).
  vm_compute. reflexivity.
Defined.

(** X7. A proof returned by the wrapper has at most as many elements as
    the binary logarithm, rounded up, of the number of addresses. The bound
    is not always reached: with three addresses the proof of the last
    position has one element, the combination of the first two leaves. *)
Theorem proof_length_bound :
  (forall (L : list string) (tree : CustomMerkleTree.t) (index : Z)
          (proof : list string),
      buildMerkleTree L = Ok tree ->
      CustomMerkleTree.getProof tree index = Ok proof ->
      List.length proof <= Nat.log2_up (List.length L)) /\
  (forall (A B C : string) (tree : CustomMerkleTree.t) (lA lB : Buffer.t),
      buildMerkleTree [A; B; C] = Ok tree ->
      addressLeaf A = Ok lA -> addressLeaf B = Ok lB ->
      CustomMerkleTree.getProof tree 2 =
      Ok [Hex.hexlify (MerkleTree.hash_pair Keccak.keccak256 lA lB)]).
Proof.
  split.
  - intros L tree index proof Hb Hp.
    apply build_spec in Hb as (lvs & HF & ->).
    assert (Hlen : List.length lvs = List.length L)
      by (symmetry; eapply Forall2_length; eauto).
    apply getProof_built_inv in Hp
      as (i & leaf & pre & post & _ & _ & Hs & _ & ->); [|exact Hlen].
    rewrite render_length, <- Hlen. apply walk_length.
    rewrite Hs, length_app. cbn. lia.
  - intros A B C tree lA lB Hb HA HB.
    apply build_spec in Hb as (lvs & HF & ->).
    inversion HF as [|? l1 ? lvs1 H1 HF1]; subst.
    inversion HF1 as [|? l2 ? lvs2 H2 HF2]; subst.
    inversion HF2 as [|? l3 ? lvs3 H3 HF3]; subst.
    inversion HF3; subst.
    assert (l1 = lA) by congruence. assert (l2 = lB) by congruence. subst.
    change 2%Z with (Z.of_nat 2).
    rewrite (getProof_built [A; B; C] [lA; lB; l3] 2 (leaf := l3))
      by reflexivity.
    f_equal. unfold MerkleTree.getProof, MerkleTree.make.
    cbn [MerkleTree.leaves MerkleTree.layers MerkleTree.find_leaf].
    rewrite layers_three, eqb_refl.
    destruct (Buffer.eqb l3 lA), (Buffer.eqb l3 lB); reflexivity.
Qed.

Lemma proof_length_bound_witness :
  (forall index proof,
      CustomMerkleTree.getProof treeABA index = Ok proof ->
      List.length proof <= Nat.log2_up (List.length [addrA; addrB; addrA]))
  /\
  CustomMerkleTree.getProof treeABA 2 =
    Ok [Hex.hexlify (MerkleTree.hash_pair Keccak.keccak256 leafA leafB)].
Proof.
  assert (Hb : buildMerkleTree [addrA; addrB; addrA] = Ok treeABA)
    by (vm_compute; reflexivity).
  split.
  - intros index proof.
    exact (proj1 proof_length_bound [addrA; addrB; addrA] treeABA index
             proof Hb).
  - apply (proj2 proof_length_bound addrA addrB addrA treeABA leafA leafB Hb).
    + vm_compute. reflexivity.
    + vm_compute. reflexivity.
Defined.

(** ** One rule for pairs *)

(** X8. The three places where two digests are combined (the library
    when it builds a layer, the library when it verifies, and
    [MerkleProof] of the contract) compute the same digest, and that digest
    does not depend on the order of the two: a verifier needs no left or
    right marks. *)
Theorem pair_combination_agrees (a b : Buffer.t) :
  MerkleTree.verify_step Keccak.keccak256 a b =
    MerkleTree.hash_pair Keccak.keccak256 a b /\
  MerkleProof.hashPair a b = MerkleTree.hash_pair Keccak.keccak256 a b /\
  MerkleTree.hash_pair Keccak.keccak256 a b =
    MerkleTree.hash_pair Keccak.keccak256 b a /\
  MerkleProof.hashPair a b = MerkleProof.hashPair b a.
Proof.
  assert (Hoz : forall x y,
             MerkleProof.hashPair x y =
             MerkleTree.hash_pair Keccak.keccak256 x y).
  { intros x y. rewrite <- verify_step_hash_pair.
    unfold MerkleProof.hashPair, MerkleTree.verify_step, Buffer.concat.
    cbn [List.concat]. now rewrite !app_nil_r. }
  split; [apply verify_step_hash_pair|]. split; [apply Hoz|].
  split; [apply hash_pair_comm|].
  rewrite !Hoz. apply hash_pair_comm.
Qed.

(** ** What the contract accepts *)

(** X9. [isAddressAllowed] accepts an address with a proof exactly when
    folding the proof into the hash of the 20 address bytes gives the stored
    root. So the contract accepts, for every address of a list, the proof
    the library gives in a tree whose leaves are those single hashes, once
    the root of that tree is stored. *)
Theorem contract_accepts_packed_leaves :
  (forall (st : NFT.state) (a : Buffer.t) (proof : list Buffer.t),
      NFT.isAddressAllowed st a proof = true <->
      fold_left (MerkleTree.verify_step Keccak.keccak256) proof
        (Keccak.keccak256 a) = NFT.allowedAddressesRoot st) /\
  (forall (st : NFT.state) (addresses : list Buffer.t) (a : Buffer.t),
      In a addresses ->
      let mt :=
        MerkleTree.make Keccak.keccak256
          (map Keccak.keccak256 addresses) in
      let proof :=
        map MerkleTree.data (MerkleTree.getProof mt (Keccak.keccak256 a)) in
      NFT.isAddressAllowed
        (NFT.setAllowedAddressesRoot st (MerkleTree.getRoot mt)) a proof
      = true).
Proof.
  assert (Hiff : forall st a proof,
             NFT.isAddressAllowed st a proof = true <->
             fold_left (MerkleTree.verify_step Keccak.keccak256) proof
               (Keccak.keccak256 a) = NFT.allowedAddressesRoot st).
  { intros st a proof. unfold NFT.isAddressAllowed, MerkleProof.verify.
    rewrite processProof_fold. apply eqb_eq. }
  split; [exact Hiff|].
  intros st addresses a Hin mt proof. apply Hiff.
  cbn [NFT.setAllowedAddressesRoot NFT.allowedAddressesRoot].
  apply getProof_valid. now apply in_map.
Qed.

Lemma contract_accepts_packed_leaves_witness :
  NFT.isAddressAllowed
    (NFT.setAllowedAddressesRoot
       {| NFT.allowedAddressesRoot := [] |}
       (MerkleTree.getRoot
          (MerkleTree.make Keccak.keccak256
             (map Keccak.keccak256
                [Ethers.address_bytes account0;
                 Ethers.address_bytes account1]))))
    (Ethers.address_bytes account1)
    (map MerkleTree.data
       (MerkleTree.getProof
          (MerkleTree.make Keccak.keccak256
             (map Keccak.keccak256
                [Ethers.address_bytes account0;
                 Ethers.address_bytes account1]))
          (Keccak.keccak256 (Ethers.address_bytes account1))))
  = true.
Proof.
  apply (proj2 contract_accepts_packed_leaves
           {| NFT.allowedAddressesRoot := [] |}
           [Ethers.address_bytes account0; Ethers.address_bytes account1]
           (Ethers.address_bytes account1)).
  right. left. reflexivity.
Defined.

(** * The byte-array helpers *)

Lemma digit_facts (c : ascii) :
  Hex.is_digit c = true ->
  ByteArray.is_white_space c = false /\
  Ascii.eqb c "-" = false /\ Ascii.eqb c "+" = false /\
  Ascii.eqb c "x" = false /\ Ascii.eqb c "X" = false.
Proof.
  destruct c as [[] [] [] [] [] [] [] []]; intros H;
    solve [discriminate H | repeat split].
Qed.

Lemma value_bound (c : ascii) (d : N) :
  Hex.value c = Some d -> (d < 16)%N.
Proof.
  destruct c as [[] [] [] [] [] [] [] []]; intros H;
    solve [discriminate H | inversion H; reflexivity].
Qed.

(** [parseInt] and [Buffer.from] read a pair of digits as the same byte. *)
Lemma parseInt_pair (hi lo : ascii) (x : byte) :
  Hex.pair hi lo = Some x ->
  ByteArray.to_uint8 (ByteArray.parseInt16 (String hi (String lo ""))) = x.
Proof.
  unfold Hex.pair.
  destruct (Hex.value hi) as [h|] eqn:Eh; [|discriminate].
  destruct (Hex.value lo) as [l|] eqn:El; [|discriminate].
  intros H.
  assert (Hx : Hex.byte_of_N (16 * h + l) = x) by congruence. clear H.
  assert (Hdh : Hex.is_digit hi = true) by (unfold Hex.is_digit; now rewrite Eh).
  assert (Hdl : Hex.is_digit lo = true) by (unfold Hex.is_digit; now rewrite El).
  destruct (digit_facts hi Hdh) as (W & M & P & _ & _).
  destruct (digit_facts lo Hdl) as (_ & _ & _ & X1 & X2).
  unfold ByteArray.parseInt16. cbn [ByteArray.trim_start]. rewrite W.
  cbn [ByteArray.strip_sign]. rewrite M, P.
  cbn [ByteArray.strip_0x]. rewrite X1, X2, andb_false_r.
  cbn [ByteArray.starts_with_digit]. rewrite Hdh.
  cbn [ByteArray.digits_value]. rewrite Eh, El.
  cbn [ByteArray.to_uint8]. rewrite <- Hx. f_equal.
  apply value_bound in Eh, El.
  rewrite Z.mod_small by lia. rewrite N2Z.id. lia.
Qed.

Lemma string_pair_ind (P : string -> Prop) :
  P ""%string -> (forall c, P (String c "")) ->
  (forall c1 c2 s, P s -> P (String c1 (String c2 s))) ->
  forall s, P s.
Proof.
  intros H0 H1 H2. fix rec 1. intros [|c1 [|c2 s]];
    [exact H0 | exact (H1 c1) | exact (H2 c1 c2 s (rec s))].
Qed.

Lemma pair_bytes_parse (s : string) :
  forall b, Hex.parse s = Some b -> ByteArray.pair_bytes s = b.
Proof.
  induction s as [|c|hi lo s IH] using string_pair_ind; intros b.
  - cbn. congruence.
  - cbn. discriminate.
  - cbn [Hex.parse ByteArray.pair_bytes].
    destruct (Hex.pair hi lo) as [x|] eqn:Ep; [|discriminate].
    destruct (Hex.parse s) as [b'|] eqn:Es; [|discriminate].
    intros H. inversion H; subst.
    rewrite (parseInt_pair _ _ Ep). f_equal. now apply IH.
Qed.

Lemma pair_bytes_length (s : string) :
  List.length (ByteArray.pair_bytes s) = String.length s / 2.
Proof.
  induction s as [|c|c1 c2 s IH] using string_pair_ind.
  - reflexivity.
  - reflexivity.
  - cbn [ByteArray.pair_bytes List.length String.length]. rewrite IH.
    change (S (S (String.length s))) with (1 * 2 + String.length s).
    now rewrite Nat.div_add_l by lia.
Qed.

Lemma parse_not_prefixed (s : string) (b : Buffer.t) :
  Hex.parse s = Some b -> Ethers.has_0x s = false.
Proof.
  destruct s as [|c1 [|c2 s]]; try reflexivity.
  cbn [Hex.parse Ethers.has_0x]. unfold Hex.pair.
  destruct (Hex.value c1); [|discriminate].
  destruct (Hex.value c2) eqn:E2; [|discriminate].
  intros _.
  assert (Hd : Hex.is_digit c2 = true) by (unfold Hex.is_digit; now rewrite E2).
  destruct (digit_facts c2 Hd) as (_ & _ & _ & -> & _).
  apply andb_false_r.
Qed.

Lemma bytesToHex_encode (b : Buffer.t) :
  ByteArray.bytesToHex b = Hex.encode b.
Proof.
  unfold ByteArray.bytesToHex.
  induction b as [|x b IH]; [reflexivity|].
  cbn [map Hex.encode].
  assert (Hx : ByteArray.padStart2 (ByteArray.toString16 x) =
               String (Hex.digit (Byte.to_N x / 16))
                 (String (Hex.digit (Byte.to_N x mod 16)) ""))
    by (destruct x; reflexivity).
  destruct b as [|y b].
  - cbn [map String.concat Hex.encode]. exact Hx.
  - change (String.concat "" (?a :: ?l)) with (a ++ String.concat "" l)%string.
    cbn [map] in IH |- *.
    change (String.concat ""
              (ByteArray.padStart2 (ByteArray.toString16 x)
               :: ByteArray.padStart2 (ByteArray.toString16 y)
               :: map (fun b0 => ByteArray.padStart2 (ByteArray.toString16 b0)) b))
      with (ByteArray.padStart2 (ByteArray.toString16 x) ++
            String.concat ""
              (ByteArray.padStart2 (ByteArray.toString16 y)
               :: map (fun b0 => ByteArray.padStart2 (ByteArray.toString16 b0)) b))%string.
    rewrite IH, Hx. reflexivity.
Qed.

Lemma hexToBytes_hexlify (b : Buffer.t) :
  ByteArray.hexToBytes (Hex.hexlify b) = b.
Proof.
  unfold ByteArray.hexToBytes, ByteArray.clean, Hex.hexlify.
  cbn [String.append Ethers.has_0x Ascii.eqb Bool.eqb andb Hex.slice].
  apply pair_bytes_parse, parse_encode.
Qed.

(** X10. The two helpers are inverse on bytes: [hexToBytes] reads back
    what [bytesToHex] writes, with or without the [0x] that the variant
    puts in front of roots and proof elements; and [bytesToHex] writes what
    [Buffer]'s [toString('hex')] writes. *)
Theorem hex_bytes_round_trip (b : Buffer.t) :
  ByteArray.hexToBytes ("0x" ++ ByteArray.bytesToHex b) = b /\
  ByteArray.hexToBytes (ByteArray.bytesToHex b) = b /\
  ByteArray.bytesToHex b = Hex.encode b.
Proof.
  rewrite bytesToHex_encode. split; [|split; [|reflexivity]].
  - apply hexToBytes_hexlify.
  - unfold ByteArray.hexToBytes, ByteArray.clean.
    rewrite (parse_not_prefixed _ (parse_encode b)).
    apply pair_bytes_parse, parse_encode.
Qed.

(** X11. [hexToBytes] always returns one byte for every two characters
    after the optional [0x], whatever the characters are: it does not stop
    at a pair that is not hexadecimal and does not throw. On text that is
    hexadecimal digits in even number, of either letter case, it returns
    the bytes [Buffer.from(text, 'hex')] returns. *)
Theorem hexToBytes_total :
  (forall hex : string,
      List.length (ByteArray.hexToBytes hex) =
      String.length (ByteArray.clean hex) / 2) /\
  (forall (s : string) (b : Buffer.t),
      Hex.parse s = Some b ->
      ByteArray.hexToBytes s = b /\
      ByteArray.hexToBytes ("0x" ++ s) = b /\
      Hex.decode s = b) /\
  ByteArray.hexToBytes "zz12" = [x00; x12] /\ Hex.decode "zz12" = [].
Proof.
  split; [|split; [|split; reflexivity]].
  - intros hex. apply pair_bytes_length.
  - intros s b Hp. unfold ByteArray.hexToBytes, ByteArray.clean.
    split; [|split].
    + rewrite (parse_not_prefixed _ Hp). now apply pair_bytes_parse.
    + cbn [String.append Ethers.has_0x Ascii.eqb Bool.eqb andb Hex.slice].
      now apply pair_bytes_parse.
    + revert b Hp.
      induction s as [|c|hi lo s IH] using string_pair_ind; intros b.
      * cbn. congruence.
      * cbn. discriminate.
      * cbn [Hex.parse Hex.decode].
        destruct (Hex.pair hi lo); [|discriminate].
        destruct (Hex.parse s) as [b'|]; [|discriminate].
        intros H. inversion H; subst. f_equal. now apply IH.
Qed.

Lemma hexToBytes_total_witness :
  ByteArray.hexToBytes "0AfF" = [x0a; xff] /\
  ByteArray.hexToBytes ("0x" ++ "0AfF") = [x0a; xff] /\
  Hex.decode "0AfF" = [x0a; xff].
Proof.
  apply (proj1 (proj2 hexToBytes_total) "0AfF"%string [x0a; xff]).
  reflexivity.
Defined.

(** X12. The two versions of [hashLeaf] return the same bytes (or throw
    the same error) for every wrapper state and every value: the leaf does
    not depend on which of [Buffer] and [hexToBytes] reads the digest. *)
Theorem hashLeaf_variants_agree (self : CustomMerkleTree.t)
  (value : list string) :
  ByteArray.hashLeaf self value = CustomMerkleTree.hashLeaf self value.
Proof.
  unfold ByteArray.hashLeaf, CustomMerkleTree.hashLeaf.
  destruct (CustomMerkleTree.includes _ _); [|reflexivity].
  destruct value as [|address rest]; [reflexivity|].
  unfold Ethers.abi_encode_address.
  destruct (Ethers.getAddress address) as [c|e]; cbn [bind]; [|reflexivity].
  rewrite keccak256_hexlify. cbn [bind].
  rewrite keccak256_hexlify. cbn [bind].
  now rewrite decode_hexlify, hexToBytes_hexlify.
Qed.

(** * Minting *)

Section MintingFacts.

Local Open Scope Z_scope.

Variable tokens : Type.
Variable totalSupply : tokens -> Z.
Variable _safeMint : tokens -> Buffer.t -> Z -> result tokens.
Variable allowedAddresses : Buffer.t -> bool.
Variable onlyOwner : Buffer.t -> result unit.

Abbreviation mint :=
  (Minting.mint totalSupply _safeMint allowedAddresses).
Abbreviation mint_loop := (Minting.mint_loop _safeMint).

Lemma require_ok (c : bool) (reason : string) (u : unit) :
  Minting.require c reason = Ok u -> c = true.
Proof. destruct c; [reflexivity|discriminate]. Qed.

Lemma checked_add_ok (a b c : Z) :
  Minting.checked_add a b = Ok c ->
  c = a + b /\ a + b <= Minting.uint256_max.
Proof.
  unfold Minting.checked_add.
  destruct (Z.leb_spec (a + b) Minting.uint256_max) as [Hle|Hgt];
    [|discriminate].
  intros Hok. inversion Hok. auto.
Qed.

Lemma checked_mul_ok (a b c : Z) :
  Minting.checked_mul a b = Ok c ->
  c = a * b /\ a * b <= Minting.uint256_max.
Proof.
  unfold Minting.checked_mul.
  destruct (Z.leb_spec (a * b) Minting.uint256_max) as [Hle|Hgt];
    [|discriminate].
  intros Hok. inversion Hok. auto.
Qed.

(** The loop runs to its end when no [_safeMint] reverts and the counter
    stays a [uint256]. *)
Lemma mint_loop_runs (n : nat) :
  forall i supply to tk,
    (forall tk to id, exists tk', _safeMint tk to id = Ok tk') ->
    0 <= supply -> 0 <= i ->
    supply + i + Z.of_nat n <= Minting.uint256_max + 1 ->
    i + Z.of_nat n <= Minting.uint256_max ->
    exists tk', mint_loop n i supply to tk = Ok tk'.
Proof.
  induction n as [|n IH]; intros i supply to tk Hs H0 Hi Hb1 Hb2;
    cbn [Minting.mint_loop]; [eauto|].
  unfold Minting.checked_add.
  destruct (Z.leb_spec (supply + i) Minting.uint256_max); [|lia].
  cbn [bind]. destruct (Hs tk to (supply + i)) as (tk1 & ->). cbn [bind].
  destruct (Z.leb_spec (i + 1) Minting.uint256_max); [|lia].
  cbn [bind]. apply IH; auto; lia.
Qed.

(** When the loop ends it has called [_safeMint] once per pass and the
    counter never overflowed. *)
Lemma mint_loop_ok (n : nat) :
  forall i supply to tk tk',
    mint_loop n i supply to tk = Ok tk' ->
    0 <= i ->
    (n = O \/ i + Z.of_nat n <= Minting.uint256_max) /\
    ((forall tk to id tk',
         _safeMint tk to id = Ok tk' -> totalSupply tk' = totalSupply tk + 1) ->
     totalSupply tk' = totalSupply tk + Z.of_nat n).
Proof.
  induction n as [|n IH]; intros i supply to tk tk' H Hi;
    cbn [Minting.mint_loop] in H.
  - inversion H; subst. split; [now left|]. intros _. lia.
  - destruct (Minting.checked_add supply i) as [id|] eqn:E1;
      cbn [bind] in H; [|discriminate].
    destruct (_safeMint tk to id) as [tk1|] eqn:E2;
      cbn [bind] in H; [|discriminate].
    destruct (Minting.checked_add i 1) as [i'|] eqn:E3;
      cbn [bind] in H; [|discriminate].
    apply checked_add_ok in E3 as [-> Hi1].
    destruct (IH _ _ _ _ _ H ltac:(lia)) as [Hb Hsup]. split.
    + right. destruct Hb as [->|Hb]; lia.
    + intros Hone. rewrite (Hsup Hone), (Hone _ _ _ _ E2). lia.
Qed.

(** X13. When no [_safeMint] reverts, [mint] succeeds exactly when the
    contract is not paused, the sender passes the allowlist check (by
    proof or by the mapping), the block is not before [allowMintingOn], the
    amount is positive, at most [maxMintAmountPerTx] and below the largest
    [uint256], the payment covers [cost * amount], and the supply after the
    mint does not exceed [maxSupply]; it then emits one [Mint] event with
    the amount and the sender. *)
Theorem mint_succeeds_iff (st : Minting.storage) (tk : tokens)
  (sender : Buffer.t) (value timestamp amount : Z) (proof : list Buffer.t) :
  (forall tk to id, exists tk', _safeMint tk to id = Ok tk') ->
  Minting.is_uint256 value ->
  Minting.is_uint256 (Minting.maxSupply st) ->
  Minting.is_uint256 (totalSupply tk) ->
  (exists tk', mint st tk sender value timestamp amount proof =
               Ok (tk', [Minting.Mint amount sender])) <->
  (Minting.paused st = false /\
   (NFT.isAddressAllowed (Minting.allowlist st) sender proof = true \/
    allowedAddresses sender = true) /\
   Minting.allowMintingOn st <= timestamp /\
   0 < amount <= Minting.maxMintAmountPerTx st /\
   amount < Minting.uint256_max /\
   Minting.cost st * amount <= value /\
   totalSupply tk + amount <= Minting.maxSupply st).
Proof.
  intros Hsafe Hv Hmax Hsup. unfold Minting.is_uint256 in *. split.
  - intros (tk' & H). unfold Minting.mint in H.
    destruct (Minting.require (negb (Minting.paused st)) _) as [[]|] eqn:R1;
      cbn [bind] in H; [|discriminate].
    destruct (Minting.require (_ || _) _) as [[]|] eqn:R2;
      cbn [bind] in H; [|discriminate].
    destruct (Minting.require (Minting.allowMintingOn st <=? timestamp) _)
      as [[]|] eqn:R3; cbn [bind] in H; [|discriminate].
    destruct (Minting.require (0 <? amount) _) as [[]|] eqn:R4;
      cbn [bind] in H; [|discriminate].
    destruct (Minting.require (amount <=? _) _) as [[]|] eqn:R5;
      cbn [bind] in H; [|discriminate].
    destruct (Minting.checked_mul _ _) as [price|] eqn:M;
      cbn [bind] in H; [|discriminate].
    destruct (Minting.require (price <=? value) _) as [[]|] eqn:R6;
      cbn [bind] in H; [|discriminate].
    destruct (Minting.checked_add _ _) as [total|] eqn:A;
      cbn [bind] in H; [|discriminate].
    destruct (Minting.require (total <=? _) _) as [[]|] eqn:R7;
      cbn [bind] in H; [|discriminate].
    destruct (Minting.mint_loop _ _ _ _ _ _) as [tk1|] eqn:Lp;
      cbn [bind] in H; [|discriminate].
    apply require_ok in R1, R2, R3, R4, R5, R6, R7.
    apply checked_mul_ok in M as [-> _]. apply checked_add_ok in A as [-> _].
    apply negb_true_iff in R1. apply orb_true_iff in R2.
    apply Z.leb_le in R3, R5, R6, R7. apply Z.ltb_lt in R4.
    destruct (@mint_loop_ok _ _ _ _ _ _ Lp ltac:(lia)) as [[Hz|Hb] _].
    + lia.
    + rewrite Z2Nat.id in Hb by lia. repeat split; auto; lia.
  - intros (P & Al & T & [A0 A1] & Alt & C & S). unfold Minting.mint.
    rewrite P. cbn [negb Minting.require bind].
    replace (_ || _) with true by (symmetry; now apply orb_true_iff).
    cbn [Minting.require bind].
    apply Z.leb_le in T as ->. cbn [Minting.require bind].
    apply Z.ltb_lt in A0 as HA0. rewrite HA0. cbn [Minting.require bind].
    apply Z.leb_le in A1 as ->. cbn [Minting.require bind].
    unfold Minting.checked_mul.
    destruct (Z.leb_spec (Minting.cost st * amount) Minting.uint256_max);
      [|lia].
    cbn [bind]. apply Z.leb_le in C as ->. cbn [Minting.require bind].
    unfold Minting.checked_add.
    destruct (Z.leb_spec (totalSupply tk + amount) Minting.uint256_max);
      [|lia].
    cbn [bind]. apply Z.leb_le in S as HS. rewrite HS.
    cbn [Minting.require bind].
    destruct (@mint_loop_runs (Z.to_nat amount) 1 (totalSupply tk) sender tk)
      as (tk' & ->); try rewrite Z2Nat.id; try lia; [exact Hsafe|].
    exists tk'. reflexivity.
Qed.

(** X14. If each [_safeMint] that returns adds one to [totalSupply], a
    successful [mint] adds exactly the amount, and the supply after it is
    at most [maxSupply]: minting never takes the supply over the cap. *)
Theorem mint_respects_cap (st : Minting.storage) (tk tk' : tokens)
  (sender : Buffer.t) (value timestamp amount : Z) (proof : list Buffer.t)
  (events : list Minting.event) :
  (forall tk to id tk',
      _safeMint tk to id = Ok tk' -> totalSupply tk' = totalSupply tk + 1) ->
  mint st tk sender value timestamp amount proof = Ok (tk', events) ->
  totalSupply tk' = totalSupply tk + amount /\
  totalSupply tk' <= Minting.maxSupply st /\
  0 < amount.
Proof.
  intros Hone H. unfold Minting.mint in H.
  destruct (Minting.require (negb (Minting.paused st)) _) as [[]|] eqn:R1;
    cbn [bind] in H; [|discriminate].
  destruct (Minting.require (_ || _) _) as [[]|] eqn:R2;
    cbn [bind] in H; [|discriminate].
  destruct (Minting.require (Minting.allowMintingOn st <=? timestamp) _)
    as [[]|] eqn:R3; cbn [bind] in H; [|discriminate].
  destruct (Minting.require (0 <? amount) _) as [[]|] eqn:R4;
    cbn [bind] in H; [|discriminate].
  destruct (Minting.require (amount <=? _) _) as [[]|] eqn:R5;
    cbn [bind] in H; [|discriminate].
  destruct (Minting.checked_mul _ _) as [price|] eqn:M;
    cbn [bind] in H; [|discriminate].
  destruct (Minting.require (price <=? value) _) as [[]|] eqn:R6;
    cbn [bind] in H; [|discriminate].
  destruct (Minting.checked_add _ _) as [total|] eqn:A;
    cbn [bind] in H; [|discriminate].
  destruct (Minting.require (total <=? _) _) as [[]|] eqn:R7;
    cbn [bind] in H; [|discriminate].
  destruct (Minting.mint_loop _ _ _ _ _ _) as [tk1|] eqn:Lp;
    cbn [bind] in H; [|discriminate].
  inversion H; subst. clear H.
  apply require_ok in R4, R7. apply checked_add_ok in A as [-> _].
  apply Z.leb_le in R7. apply Z.ltb_lt in R4.
  destruct (@mint_loop_ok _ _ _ _ _ _ Lp ltac:(lia)) as [_ Hs].
  rewrite (Hs Hone), Z2Nat.id by lia. lia.
Qed.

(** X15. [pause] and [unpause] pass only callers that [onlyOwner]
    admits. After a successful [pause] every [mint], whoever calls it and
    whatever it pays, reverts with [Contract is paused]; a following
    [unpause] by the same caller puts back the state the contract had
    before the pause, if it was not paused then. *)
Theorem pause_blocks_minting (st st' : Minting.storage) (owner : Buffer.t)
  (events : list Minting.event) :
  Minting.pause onlyOwner st owner = Ok (st', events) ->
  onlyOwner owner = Ok tt /\
  events = [Minting.Paused owner] /\
  (forall tk sender value timestamp amount proof,
      mint st' tk sender value timestamp amount proof =
      Throw (Error "Contract is paused")) /\
  (Minting.paused st = false ->
   Minting.unpause onlyOwner st' owner = Ok (st, [Minting.Unpaused owner])).
Proof.
  unfold Minting.pause.
  destruct (onlyOwner owner) as [[]|] eqn:E; cbn [bind]; [|discriminate].
  intros H. inversion H; subst. clear H.
  split; [reflexivity|]. split; [reflexivity|]. split.
  - intros. reflexivity.
  - intros Hp. unfold Minting.unpause. rewrite E. cbn [bind].
    destruct st; cbn in *. subst. reflexivity.
Qed.

End MintingFacts.

Lemma ledger_mint_total :
  forall (tk : Minting.ledger) (to : Buffer.t) (id : Z),
    exists tk', Minting.ledger_mint tk to id = Ok tk'.
Proof. intros. eexists. reflexivity. Qed.

Lemma ledger_mint_one :
  forall (tk : Minting.ledger) (to : Buffer.t) (id : Z) (tk' : Minting.ledger),
    Minting.ledger_mint tk to id = Ok tk' ->
    Minting.ledger_supply tk' = (Minting.ledger_supply tk + 1)%Z.
Proof.
  intros tk to id tk' H. inversion H; subst.
  unfold Minting.ledger_supply. cbn [List.length]. lia.
Qed.

Lemma small_is_uint256 (x : Z) :
  (0 <= x)%Z -> (x <? 2 ^ 255)%Z = true -> Minting.is_uint256 x.
Proof.
  intros H0 H. apply Z.ltb_lt in H. split; [exact H0|].
  unfold Minting.uint256_max.
  assert ((2 ^ 255 < 2 ^ 256 - 1)%Z) by (vm_compute; reflexivity). lia.
Qed.

Lemma mint_succeeds_iff_witness :
  exists tk',
    Minting.mint Minting.ledger_supply Minting.ledger_mint (fun _ => false)
      sample_storage [] (Ethers.address_bytes account1)
      (30 * 10 ^ 18) 1700000001 3 sample_proof
    = Ok (tk', [Minting.Mint 3 (Ethers.address_bytes account1)]).
Proof.
  apply (proj2 (@mint_succeeds_iff Minting.ledger Minting.ledger_supply
                  Minting.ledger_mint (fun _ => false) sample_storage []
                  (Ethers.address_bytes account1) (30 * 10 ^ 18) 1700000001
                  3 sample_proof ledger_mint_total
                  (@small_is_uint256 (30 * 10 ^ 18)%Z
                     ltac:(vm_compute; congruence) eq_refl)
                  (@small_is_uint256 25%Z
                     ltac:(vm_compute; congruence) eq_refl)
                  (@small_is_uint256 0%Z
                     ltac:(vm_compute; congruence) eq_refl))).
  split; [reflexivity|]. split; [left; vm_compute; reflexivity|].
  repeat split; vm_compute; congruence.
Defined.

Lemma mint_respects_cap_witness :
  exists tk' events,
    Minting.mint Minting.ledger_supply Minting.ledger_mint (fun _ => false)
      sample_storage [] (Ethers.address_bytes account1)
      (30 * 10 ^ 18) 1700000001 3 sample_proof = Ok (tk', events) /\
    Minting.ledger_supply tk' = (Minting.ledger_supply [] + 3)%Z /\
    (Minting.ledger_supply tk' <= Minting.maxSupply sample_storage)%Z /\
    (0 < 3)%Z.
Proof.
  assert (exists r,
             Minting.mint Minting.ledger_supply Minting.ledger_mint
               (fun _ => false) sample_storage []
               (Ethers.address_bytes account1) (30 * 10 ^ 18) 1700000001 3
               sample_proof = Ok r) as [[tk' events] E]
    by (vm_compute; eexists; reflexivity).
  exists tk', events. split; [exact E|].
  exact (@mint_respects_cap Minting.ledger Minting.ledger_supply
           Minting.ledger_mint (fun _ => false) sample_storage [] tk'
           (Ethers.address_bytes account1) (30 * 10 ^ 18) 1700000001 3
           sample_proof events ledger_mint_one E).
Defined.

Lemma pause_blocks_minting_witness :
  exists st',
    Minting.pause (Minting.owner_is sample_owner) sample_storage
      sample_owner = Ok (st', [Minting.Paused sample_owner]) /\
    (forall tk sender value timestamp amount proof,
        Minting.mint Minting.ledger_supply Minting.ledger_mint
          (fun _ => false) st' tk sender value timestamp amount proof =
        Throw (Error "Contract is paused")) /\
    Minting.unpause (Minting.owner_is sample_owner) st' sample_owner =
      Ok (sample_storage, [Minting.Unpaused sample_owner]).
Proof.
  set (owner := sample_owner).
  assert (E : Minting.pause (Minting.owner_is owner) sample_storage owner =
              Ok (Minting.set_paused sample_storage true,
                  [Minting.Paused owner])).
  { unfold Minting.pause, Minting.owner_is. now rewrite eqb_refl. }
  exists (Minting.set_paused sample_storage true).
  destruct (@pause_blocks_minting Minting.ledger Minting.ledger_supply
              Minting.ledger_mint (fun _ => false)
              (Minting.owner_is owner) sample_storage
              (Minting.set_paused sample_storage true) owner
              [Minting.Paused owner] E) as (_ & _ & Hm & Hu).
  split; [exact E|]. split; [exact Hm|]. apply Hu. reflexivity.
Defined.

(** * The mint form and the purchase history *)

(** X16. Take a wallet that answers, a user address that is not the
    empty text and an allowlist whose entries are all address texts of the
    hexadecimal form that [getAddress] accepts. When the user's address is
    not one of the texts of the allowlist, [mintHandler] shows
    [User rejected or transaction reverted] and never sends a transaction:
    the proof lookup throws [Index out of bounds] before the contract is
    called, so the alert for addresses that are not allowed is not the one
    shown. When the address is in the list, the transaction is sent with
    the proof of [getMerkleProof], and the outcome of the attempt is that
    of the transaction. *)
Theorem mint_form_alerts (total : Z) (user : string) (L : list string)
  (send : list string -> Z -> result unit) :
  user <> ""%string ->
  forallb valid_address L = true ->
  (~ In user L ->
   MintForm.mintHandler (Ok tt) (Ok total) (Ok user) (Some L) send =
   Some "User rejected or transaction reverted"%string) /\
  (In user L ->
   exists tree proof,
     buildMerkleTree L = Ok tree /\
     getMerkleProof tree user L = Ok proof /\
     MintForm.attempt (Ok tt) (Ok total) (Ok user) (Some L) send =
       send proof total).
Proof.
  intros Hu Hvalid. apply String.eqb_neq in Hu.
  destruct (valid_leaves L Hvalid) as (lvs & HF).
  assert (Hb : buildMerkleTree L = Ok (built L lvs))
    by (apply build_spec; eauto).
  split.
  - intros Hn. unfold MintForm.mintHandler, MintForm.attempt.
    cbn [bind]. rewrite Hu, Hb. cbn [bind].
    unfold getMerkleProof. rewrite findIndex_absent by assumption.
    rewrite getProof_out_of_bounds by lia. reflexivity.
  - intros Hin.
    destruct (present_address_proof user HF Hin) as (leaf & _ & _ & Hp).
    exists (built L lvs). eexists. split; [exact Hb|]. split; [exact Hp|].
    unfold MintForm.attempt. cbn [bind]. rewrite Hu, Hb. cbn [bind].
    rewrite Hp. reflexivity.
Qed.

Lemma mint_form_alerts_witness :
  MintForm.mintHandler (Ok tt) (Ok 10%Z) (Ok addrC)
    (Some [account0; account1]) (fun _ _ => Ok tt) =
  Some "User rejected or transaction reverted"%string.
Proof.
  apply (@mint_form_alerts 10%Z addrC [account0; account1]
           (fun _ _ => Ok tt)).
  - discriminate.
  - vm_compute. reflexivity.
  - vm_compute. intuition discriminate.
Defined.

Lemma slice_all_but_last (A : Type) (l : list A) (x : A) :
  Wallet.slice 0 (-1) (l ++ [x]) = l.
Proof.
  unfold Wallet.slice. rewrite length_app. cbn [List.length].
  destruct (Z.ltb_spec 0 0); [lia|]. destruct (Z.ltb_spec (-1) 0); [|lia].
  rewrite Z.min_l by lia. cbn [Z.to_nat skipn].
  replace (Z.to_nat (Z.max (Z.of_nat (List.length l + 1) + -1) 0 - 0))
    with (List.length l) by lia.
  rewrite firstn_app, Nat.sub_diag, firstn_all. cbn. apply app_nil_r.
Qed.

(** X17. [walletOfOwner] returns as many token ids as the owner's
    balance when every lookup succeeds. A run of the purchase history with
    the contract and the account set replaces the list it shows, whatever
    it was: by all but the last id, in order, when the wallet holds at
    least two, and by nothing when it holds fewer or when the call failed.
    A run with the contract or the account not set leaves the list as it
    was, which is empty when it is the first run. After every run the
    component is no longer loading. *)
Theorem purchase_history_contents :
  (forall (balanceOf : Buffer.t -> Z)
          (tokenOfOwnerByIndex : Buffer.t -> Z -> result Z)
          (owner : Buffer.t) (tokenIds : list Z),
      Wallet.walletOfOwner balanceOf tokenOfOwnerByIndex owner = Ok tokenIds ->
      List.length tokenIds = Z.to_nat (balanceOf owner) /\
      forall i id,
        nth_error tokenIds i = Some id ->
        tokenOfOwnerByIndex owner (Z.of_nat i) = Ok id) /\
  (forall (tokenIds : list Z) (st : Wallet.state),
      (2 <= List.length tokenIds ->
       exists newest,
         tokenIds =
         Wallet.purchasedNFTs
           (Wallet.fetchPurchasedNFTs true true (Ok tokenIds) st)
         ++ [newest]) /\
      (List.length tokenIds < 2 ->
       Wallet.purchasedNFTs
         (Wallet.fetchPurchasedNFTs true true (Ok tokenIds) st) = [])) /\
  (forall (e : exn) (st : Wallet.state),
      Wallet.purchasedNFTs
        (Wallet.fetchPurchasedNFTs true true (Throw e) st) = []) /\
  (forall (nft account : bool) (wallet : result (list Z))
          (st : Wallet.state),
      nft = false \/ account = false ->
      Wallet.purchasedNFTs (Wallet.fetchPurchasedNFTs nft account wallet st)
      = Wallet.purchasedNFTs st) /\
  (forall (nft account : bool) (wallet : result (list Z)),
      nft = false \/ account = false ->
      Wallet.purchasedNFTs
        (Wallet.fetchPurchasedNFTs nft account wallet Wallet.initial) = []) /\
  (forall (nft account : bool) (wallet : result (list Z))
          (st : Wallet.state),
      Wallet.loading (Wallet.fetchPurchasedNFTs nft account wallet st)
      = false).
Proof.
  assert (Hunset : forall nft account wallet st,
             nft = false \/ account = false ->
             Wallet.purchasedNFTs
               (Wallet.fetchPurchasedNFTs nft account wallet st)
             = Wallet.purchasedNFTs st).
  { intros nft account wallet st [-> | ->]; unfold Wallet.fetchPurchasedNFTs;
      [reflexivity|]. now rewrite orb_true_r. }
  split; [|split; [|split; [|split; [|split]]]].
  - intros balanceOf tokenOfOwnerByIndex owner tokenIds H.
    unfold Wallet.walletOfOwner in H. apply mapM_Forall2 in H.
    split.
    + rewrite <- (Forall2_length H). apply length_seq.
    + intros i id Hi.
      assert (Hlen : i < List.length tokenIds)
        by (apply nth_error_Some; congruence).
      rewrite <- (Forall2_length H), length_seq in Hlen.
      assert (Hs : nth_error (seq 0 (Z.to_nat (balanceOf owner))) i = Some i).
      { rewrite nth_error_nth' with (d := 0) by now rewrite length_seq.
        now rewrite seq_nth. }
      destruct (Forall2_nth H i Hs) as (id' & Hid & Hok).
      congruence.
  - intros tokenIds st. unfold Wallet.fetchPurchasedNFTs. cbn [negb orb].
    split.
    + intros Hlen. destruct (Nat.ltb_spec (List.length tokenIds) 2); [lia|].
      destruct (exists_last (l := tokenIds)) as (l & x & ->).
      * intros ->. cbn in Hlen. lia.
      * exists x. cbn [Wallet.setLoading Wallet.setPurchasedNFTs
                        Wallet.purchasedNFTs].
        now rewrite slice_all_but_last.
    + intros Hlen. destruct (Nat.ltb_spec (List.length tokenIds) 2); [|lia].
      reflexivity.
  - reflexivity.
  - exact Hunset.
  - intros nft account wallet H.
    now rewrite (Hunset nft account wallet Wallet.initial H).
  - intros nft account wallet st. unfold Wallet.fetchPurchasedNFTs.
    destruct (negb nft || negb account); [reflexivity|].
    destruct wallet as [tokenIds|e]; [|reflexivity].
    now destruct (List.length tokenIds <? 2)%nat.
Qed.

Lemma purchase_history_contents_witness :
  (exists newest,
      [1; 2; 3]%Z =
      Wallet.purchasedNFTs
        (Wallet.fetchPurchasedNFTs true true (Ok [1; 2; 3]%Z)
           {| Wallet.purchasedNFTs := [7; 8]%Z; Wallet.loading := false |})
      ++ [newest]) /\
  Wallet.purchasedNFTs
    (Wallet.fetchPurchasedNFTs false true (Ok [1; 2; 3]%Z)
       {| Wallet.purchasedNFTs := [7; 8]%Z; Wallet.loading := false |})
  = [7; 8]%Z.
Proof.
  destruct purchase_history_contents as (_ & Hset & _ & Hunset & _).
  split.
  - apply (proj1 (Hset [1; 2; 3]%Z
                    {| Wallet.purchasedNFTs := [7; 8]%Z;
                       Wallet.loading := false |})).
    cbn. lia.
  - apply (Hunset false true (Ok [1; 2; 3]%Z)
             {| Wallet.purchasedNFTs := [7; 8]%Z;
                Wallet.loading := false |}).
    left. reflexivity.
Defined.

(** * Verification is stateless *)

(** X18. Once a wrapper is initialised, [verify] does not look at its
    tree: the answer is whether folding the bytes read from the proof
    texts into the bytes read from the leaf text gives the bytes read from
    the root text, so every initialised wrapper gives the same answer to
    the same question, whatever allowlist it was built from. *)
Theorem verify_is_stateless :
  (forall (self : CustomMerkleTree.t) (mt : MerkleTree.t)
          (proof : list string) (root leaf : string),
      CustomMerkleTree.initialized self = true ->
      CustomMerkleTree.tree self = Some mt ->
      CustomMerkleTree.verify self proof root leaf =
      Ok (Buffer.eqb
            (fold_left (MerkleTree.verify_step Keccak.keccak256)
               (map (fun p => Hex.decode (Hex.slice 2 p)) proof)
               (Hex.decode (Hex.slice 2 leaf)))
            (Hex.decode (Hex.slice 2 root)))) /\
  (forall (L1 L2 : list string) (t1 t2 : CustomMerkleTree.t)
          (proof : list string) (root leaf : string),
      buildMerkleTree L1 = Ok t1 -> buildMerkleTree L2 = Ok t2 ->
      CustomMerkleTree.verify t1 proof root leaf =
      CustomMerkleTree.verify t2 proof root leaf).
Proof.
  assert (Hc : forall self mt proof root leaf,
             CustomMerkleTree.initialized self = true ->
             CustomMerkleTree.tree self = Some mt ->
             CustomMerkleTree.verify self proof root leaf =
             Ok (Buffer.eqb
                   (fold_left (MerkleTree.verify_step Keccak.keccak256)
                      (map (fun p => Hex.decode (Hex.slice 2 p)) proof)
                      (Hex.decode (Hex.slice 2 leaf)))
                   (Hex.decode (Hex.slice 2 root)))).
  { intros self mt proof root leaf Hi Ht. unfold CustomMerkleTree.verify.
    rewrite Hi, Ht. unfold MerkleTree.verify.
    rewrite <- (map_map (fun p => Hex.decode (Hex.slice 2 p))
                  MerkleTree.NodeBuffer).
    now rewrite verify_loop_buffers. }
  split; [exact Hc|].
  intros L1 L2 t1 t2 proof root leaf H1 H2.
  apply build_spec in H1 as (lvs1 & _ & ->).
  apply build_spec in H2 as (lvs2 & _ & ->).
  now rewrite (Hc (built L1 lvs1) _ proof root leaf eq_refl eq_refl),
    (Hc (built L2 lvs2) _ proof root leaf eq_refl eq_refl).
Qed.

Lemma verify_is_stateless_witness :
  CustomMerkleTree.verify treeABA ["0x12"%string] "0x34" "0x56" =
  CustomMerkleTree.verify (built [addrA] [leafA]) ["0x12"%string]
    "0x34" "0x56".
Proof.
  apply (proj2 verify_is_stateless [addrA; addrB; addrA] [addrA]).
  - vm_compute. reflexivity.
  - vm_compute. reflexivity.
Defined.
